(** * CityFlow dashboard: live telemetry synchronisation and playback layer

    A shallow embedding of three pieces of the frontend:

    - [TimeSeriesMerger]: [mergeSeries] of [components/MetricsChart.tsx];
    - [PlaybackEngine]: the cursor logic of [components/ReplayPlayer.tsx];
    - [StreamClient]: [connectStateStream] of [lib/websocket.ts], as an
      event-driven transition system.

    Numbers are modelled as integers ([Z]): ticks [t] are integer ticks and
    the merger only copies metric values, never computing with them. *)

From Stdlib Require Import ZArith String Ascii List Lia.
From stdpp Require Import base gmap strings list sorting fin_maps.

Local Open Scope string_scope.
Local Open Scope list_scope.
Local Open Scope Z_scope.

(* ===================================================================== *)
(** * TimeSeriesMerger ([components/MetricsChart.tsx]) *)
(* ===================================================================== *)

Module TimeSeriesMerger.

(** [interface MetricsRecord] of [lib/types.ts].  An optional field that is
    missing, [undefined] or [null] is [None]: the only consumer is [??],
    which treats the three alike. *)
Record MetricsRecord := {
  t : Z;
  vehicle_count : Z;
  avg_speed : option Z;
  avg_waiting : option Z;
  throughput : option Z
}.

(** [interface MetricsSeries { [runId: string]: MetricsRecord[] }], given by
    the list that [Object.entries(series)] returns, in its iteration order.
    A JavaScript object has each key once, so a well-formed series has
    pairwise distinct run identifiers ([wf_series]). *)
Definition MetricsSeries := list (string * list MetricsRecord).

Definition runIds (series : MetricsSeries) : list string := series.*1.

Definition wf_series (series : MetricsSeries) : Prop := NoDup (runIds series).

(** A bucket is the object [{ t: number; [key: string]: number | null }];
    the property [t] is the entry under the key ["t"].  Buckets are compared
    by their entries: the order in which properties were added to an object
    is not part of a row. *)
Abbreviation bucket := (gmap string Z).

(** [(record as Record<string, number | null>)[metric]]: a record has the
    five properties of its interface, any other name reads [undefined]. *)
Definition field (record : MetricsRecord) (metric : string) : option Z :=
  if String.eqb metric "t" then Some (t record)
  else if String.eqb metric "vehicle_count" then Some (vehicle_count record)
  else if String.eqb metric "avg_speed" then avg_speed record
  else if String.eqb metric "avg_waiting" then avg_waiting record
  else if String.eqb metric "throughput" then throughput record
  else None.

(** [value ?? 0] *)
Definition coalesce0 (value : option Z) : Z := default 0 value.

(** The template string [`${runId}-${metric}`]. *)
Definition key (runId metric : string) : string :=
  String.append runId (String.append "-" metric).

(** [Map<number, bucket>]: a JavaScript [Map] keeps its entries in insertion
    order; [set] on a present key replaces the value in place. *)
Definition TimeMap := list (Z * bucket).

Fixpoint Map_get (m : TimeMap) (k : Z) : option bucket :=
  match m with
  | [] => None
  | (k', v) :: m' => if decide (k' = k) then Some v else Map_get m' k
  end.

Fixpoint Map_set (m : TimeMap) (k : Z) (v : bucket) : TimeMap :=
  match m with
  | [] => [(k, v)]
  | (k', v') :: m' =>
      if decide (k' = k) then (k, v) :: m' else (k', v') :: Map_set m' k v
  end.

(** [Array.from(byTime.values())] *)
Definition Map_values (m : TimeMap) : list bucket := m.*2.

(** The body of the inner [records.forEach]. *)
Definition add_record (runId metric : string) (byTime : TimeMap)
    (record : MetricsRecord) : TimeMap :=
  let bucket0 := default {[ "t" := t record ]} (Map_get byTime (t record)) in
  let value := field record metric in
  let bucket1 := <[ key runId metric := coalesce0 value ]> bucket0 in
  Map_set byTime (t record) bucket1.

(** The body of the outer [Object.entries(series).forEach]. *)
Definition add_run (metric : string) (byTime : TimeMap)
    (entry : string * list MetricsRecord) : TimeMap :=
  foldl (add_record entry.1 metric) byTime entry.2.

Definition accumulate (series : MetricsSeries) (metric : string) : TimeMap :=
  foldl (add_run metric) [] series.

(** [a.t] of a row. *)
Definition row_t (row : bucket) : Z := default 0 (row !! "t").

(** The comparator [(a, b) => a.t - b.t] puts [a] before [b] when
    [a.t - b.t <= 0]. *)
Definition row_le (a b : bucket) : Prop := row_t a - row_t b <= 0.

#[global] Instance row_le_dec : RelDecision row_le.
Proof. intros a b. unfold row_le. apply _. Defined.

(** [Array.prototype.sort] with a consistent comparator returns the stable
    sorted arrangement; stdpp's [merge_sort] computes it. *)
Definition mergeSeries (series : MetricsSeries) (metric : string)
    : list bucket :=
  merge_sort row_le (Map_values (accumulate series metric)).

(** ** The accumulation, on finite maps *)

Definition to_map (m : TimeMap) : gmap Z bucket := list_to_map m.

Definition addM (runId metric : string) (M : gmap Z bucket)
    (record : MetricsRecord) : gmap Z bucket :=
  <[ t record :=
       <[ key runId metric := coalesce0 (field record metric) ]>
         (default {[ "t" := t record ]} (M !! t record)) ]> M.

Definition runM (metric : string) (M : gmap Z bucket)
    (entry : string * list MetricsRecord) : gmap Z bucket :=
  foldl (addM entry.1 metric) M entry.2.

(** The samples of a series in the order in which the two nested loops
    visit them. *)
Definition samples (series : MetricsSeries) : list (string * MetricsRecord) :=
  series ≫= (λ entry, pair entry.1 <$> entry.2).

Definition stepM (metric : string) (M : gmap Z bucket)
    (x : string * MetricsRecord) : gmap Z bucket :=
  addM x.1 metric M x.2.

(** The bucket found under [k] after the samples [l] were visited. *)
Definition bucket_ok (metric : string) (l : list (string * MetricsRecord))
    (k : Z) (ob : option bucket) : Prop :=
  match ob with
  | None => ∀ x, x ∈ l → t x.2 ≠ k
  | Some b =>
      b !! "t" = Some k ∧
      (∃ x, x ∈ l ∧ t x.2 = k) ∧
      ∀ r, is_Some (b !! key r metric) ↔
           ∃ record, (r, record) ∈ l ∧ t record = k
  end.

(** ** Properties of a series and a metric *)

Definition has_record_at (records : list MetricsRecord) (k : Z) : Prop :=
  ∃ record, record ∈ records ∧ t record = k.

(** [k] appears in at least one run's record sequence. *)
Definition time_present (series : MetricsSeries) (k : Z) : Prop :=
  ∃ r records, (r, records) ∈ series ∧ has_record_at records k.

(** Zero-fill, as a property of a series and a metric: at every present
    tick, every run without a record there has its column, with value 0. *)
Definition zero_filled (series : MetricsSeries) (metric : string) : Prop :=
  ∀ k, time_present series k →
  ∀ r records, (r, records) ∈ series → ¬ has_record_at records k →
  ∃ row, row ∈ mergeSeries series metric ∧ row_t row = k ∧
         row !! key r metric = Some 0.

(** Coercion of null metric values, as a property of a series and a metric:
    wherever a run has a record whose metric field is null or undefined, the
    row of that tick has the run's column with value 0. *)
Definition null_coerced (series : MetricsSeries) (metric : string) : Prop :=
  ∀ r records record,
    (r, records) ∈ series → record ∈ records → field record metric = None →
    ∃ row, row ∈ mergeSeries series metric ∧ row_t row = t record ∧
           row !! key r metric = Some 0.

(** ** Sample inputs *)

Definition rec_vc (time count : Z) : MetricsRecord :=
  {| t := time; vehicle_count := count;
     avg_speed := None; avg_waiting := None; throughput := None |}.

(** The series of the specification's worked example. *)
Definition example_series : MetricsSeries :=
  [ ("runA", [rec_vc 0 5; rec_vc 1 7]); ("runB", [rec_vc 1 3]) ].

Definition example_series_swapped : MetricsSeries :=
  [ ("runB", [rec_vc 1 3]); ("runA", [rec_vc 0 5; rec_vc 1 7]) ].

Definition rec_waiting (time : Z) (waiting : option Z) : MetricsRecord :=
  {| t := time; vehicle_count := 0;
     avg_speed := None; avg_waiting := waiting; throughput := None |}.

(** One run with two records at tick 0, the first without a waiting time. *)
Definition repeated_tick_series : MetricsSeries :=
  [ ("runA", [rec_waiting 0 None; rec_waiting 0 (Some 4)]) ].

Definition null_series : MetricsSeries :=
  [ ("runA", [rec_waiting 0 (Some 2); rec_waiting 1 None]);
    ("runB", [rec_waiting 1 (Some 6)]) ].

End TimeSeriesMerger.

(* ===================================================================== *)
(** * PlaybackEngine ([components/ReplayPlayer.tsx]) *)
(* ===================================================================== *)

Module PlaybackEngine.

(** [interface LaneSnapshot] and [interface ReplayFrame] of [lib/types.ts]. *)
Record LaneSnapshot := { vehicles : Z; waiting : Z }.

Record ReplayFrame := {
  t : Z;
  vehicle_count : Z;
  lanes : gmap string LaneSnapshot;
  status : string
}.

(** The two [useState] cells of the component. *)
Record State := { cursor : Z; playing : bool }.

(** [useState(0)], [useState(false)] *)
Definition initial : State := {| cursor := 0; playing := false |}.

(** [setCursor(value)] and [setCursor((prev) => ...)] *)
Definition setCursor (value : Z) (st : State) : State :=
  {| cursor := value; playing := playing st |}.

Definition setCursor_with (update : Z → Z) (st : State) : State :=
  setCursor (update (cursor st)) st.

(** [setPlaying(value)] and [setPlaying((value) => ...)] *)
Definition setPlaying (value : bool) (st : State) : State :=
  {| cursor := cursor st; playing := value |}.

Definition setPlaying_with (update : bool → bool) (st : State) : State :=
  setPlaying (update (playing st)) st.

(** [frames.length] *)
Definition length_of (frames : list ReplayFrame) : Z := Z.of_nat (length frames).

(** The effect returns early on [!playing || frames.length === 0]; otherwise
    an interval is installed, and it stays installed until [playing] or
    [frames] changes. *)
Definition interval_installed (frames : list ReplayFrame) (st : State) : bool :=
  negb (negb (playing st) || (length_of frames =? 0)).

(** The updater of the interval callback. *)
Definition advance (frames : list ReplayFrame) (prev : Z) : Z :=
  if prev >=? length_of frames - 1 then 0 else prev + 1.

(** One firing of the 200 ms interval; nothing fires when no interval is
    installed. *)
Definition tick (frames : list ReplayFrame) (st : State) : State :=
  if interval_installed frames st then setCursor_with (advance frames) st
  else st.

Definition ticks (frames : list ReplayFrame) (n : nat) (st : State) : State :=
  Nat.iter n (tick frames) st.

(** The cursor after each of [n] successive ticks. *)
Fixpoint positions (frames : list ReplayFrame) (n : nat) (st : State) : list Z :=
  match n with
  | O => []
  | S n' => cursor (tick frames st) :: positions frames n' (tick frames st)
  end.

(** [frames[cursor]] *)
Definition currentFrame (frames : list ReplayFrame) (st : State)
    : option ReplayFrame :=
  if cursor st <? 0 then None else frames !! Z.to_nat (cursor st).

(** [!selectedRun]: null, undefined and the empty string are falsy. *)
Definition no_run (selectedRun : option string) : bool :=
  match selectedRun with
  | None => true
  | Some r => String.eqb r EmptyString
  end.

(** The play button: [disabled={!selectedRun || loading || frames.length === 0}],
    [onClick={() => setPlaying((value) => !value)}]. *)
Definition play_disabled (selectedRun : option string) (loading : bool)
    (frames : list ReplayFrame) : bool :=
  no_run selectedRun || loading || (length_of frames =? 0).

Definition press_play (selectedRun : option string) (loading : bool)
    (frames : list ReplayFrame) (st : State) : State :=
  if play_disabled selectedRun loading frames then st
  else setPlaying_with negb st.


(** The slider: [min={0}], [max={Math.max(frames.length - 1, 0)}],
    [disabled={frames.length === 0}],
    [onValueChange={(value) => setCursor(value[0])}]. *)
Definition slider_min : Z := 0.

Definition slider_max (frames : list ReplayFrame) : Z :=
  Z.max (length_of frames - 1) 0.

Definition slider_disabled (frames : list ReplayFrame) : bool :=
  length_of frames =? 0.

Definition onValueChange (value : Z) (st : State) : State := setCursor value st.

(** Modelled from the spec: the [Slider] component ([components/ui/slider])
    is not among the sources.  Following "clamps to [0, length-1];
    out-of-range requests are clamped rather than rejected", a request for
    position [p] on a slider of range [lo..hi] reports [p] clamped into the
    range; a disabled slider reports nothing. *)
Definition Slider_report (lo hi : Z) (disabled : bool) (p : Z) : option Z :=
  if disabled then None else Some (Z.max lo (Z.min hi p)).

(** A seek request for position [p], through the slider. *)
Definition seek (frames : list ReplayFrame) (p : Z) (st : State) : State :=
  match Slider_report slider_min (slider_max frames) (slider_disabled frames) p with
  | Some value => onValueChange value st
  | None => st
  end.

Definition frame (time : Z) : ReplayFrame :=
  {| t := time; vehicle_count := 0; lanes := ∅; status := "running" |}.

Definition three_frames : list ReplayFrame := [frame 0; frame 1; frame 2].

End PlaybackEngine.

(* ===================================================================== *)
(** * StreamClient ([lib/websocket.ts]) *)
(* ===================================================================== *)

Module StreamClient.

(** ** JSON values and the operators the handlers apply to them *)

Inductive json :=
  | JNull
  | JBool (b : bool)
  | JNum (n : Z)
  | JStr (s : string)
  | JArr (items : list json)
  | JObj (props : list (string * json)).

(** [o[name]] on the properties of an object; [None] is [undefined]. *)
Fixpoint prop (name : string) (props : list (string * json)) : option json :=
  match props with
  | [] => None
  | (k, v) :: rest => if String.eqb k name then Some v else prop name rest
  end.

(** [payload?.state]: only an object can have the property. *)
Definition optional_state (payload : json) : option json :=
  match payload with
  | JObj props => prop "state" props
  | _ => None
  end.

(** [payload?.state ?? payload] *)
Definition state_of (payload : json) : json :=
  match optional_state payload with
  | None | Some JNull => payload
  | Some state => state
  end.

(** [if (state)] *)
Definition truthy (v : json) : bool :=
  match v with
  | JNull => false
  | JBool b => b
  | JNum n => negb (n =? 0)
  | JStr s => negb (String.eqb s EmptyString)
  | JArr _ | JObj _ => true
  end.

(** ** The session and the browser objects it uses *)

(** The four console messages of the module. *)
Inductive Diagnostic :=
  | fallback_request_failed   (* console.warn("State fallback request failed") *)
  | unable_to_open            (* console.warn("Unable to open WebSocket") *)
  | failed_to_parse           (* console.error("Failed to parse state payload") *)
  | stream_error.             (* console.warn("State stream error") *)

(** [WebSocket.readyState] *)
Inductive ReadyState := CONNECTING | OPEN | CLOSING | CLOSED.

#[global] Instance ReadyState_eq_dec : EqDecision ReadyState.
Proof. solve_decision. Defined.

(** The two functions handed to [window.setTimeout]. *)
Inductive TimerCallback := cb_pollState | cb_reconnect.

#[global] Instance TimerCallback_eq_dec : EqDecision TimerCallback.
Proof. solve_decision. Defined.

(** How a call of [fetchState] settles: with [data.state ?? null], or with
    an exception (network failure, bad status, bad body, abort). *)
Inductive Outcome := Resolved (state : json) | Rejected.

(** One session of [connectStateStream]: the five variables its closures
    share, the browser objects they refer to, and what an observer sees.
    Sockets, timeouts and requests are named by numbers drawn from one
    counter. *)
Record Session := {
  socket : option nat;
  stopped : bool;
  fallbackTimer : option nat;
  reconnectTimer : option nat;
  controller : option nat;
  sockets : gmap nat ReadyState;      (* every WebSocket constructed *)
  timers : gmap nat TimerCallback;    (* the timeouts still pending *)
  requests : gmap nat bool;           (* the fetches still outstanding,
                                         with [signal.aborted] *)
  next_id : nat;
  delivered : list json;              (* the listener's calls, oldest first *)
  console : list Diagnostic
}.

Definition set_socket (v : option nat) (s : Session) : Session :=
  {| socket := v; stopped := stopped s; fallbackTimer := fallbackTimer s;
     reconnectTimer := reconnectTimer s; controller := controller s;
     sockets := sockets s; timers := timers s; requests := requests s;
     next_id := next_id s; delivered := delivered s; console := console s |}.

Definition set_stopped (v : bool) (s : Session) : Session :=
  {| socket := socket s; stopped := v; fallbackTimer := fallbackTimer s;
     reconnectTimer := reconnectTimer s; controller := controller s;
     sockets := sockets s; timers := timers s; requests := requests s;
     next_id := next_id s; delivered := delivered s; console := console s |}.

Definition set_fallbackTimer (v : option nat) (s : Session) : Session :=
  {| socket := socket s; stopped := stopped s; fallbackTimer := v;
     reconnectTimer := reconnectTimer s; controller := controller s;
     sockets := sockets s; timers := timers s; requests := requests s;
     next_id := next_id s; delivered := delivered s; console := console s |}.

Definition set_reconnectTimer (v : option nat) (s : Session) : Session :=
  {| socket := socket s; stopped := stopped s;
     fallbackTimer := fallbackTimer s; reconnectTimer := v;
     controller := controller s; sockets := sockets s; timers := timers s;
     requests := requests s; next_id := next_id s; delivered := delivered s;
     console := console s |}.

Definition set_controller (v : option nat) (s : Session) : Session :=
  {| socket := socket s; stopped := stopped s;
     fallbackTimer := fallbackTimer s; reconnectTimer := reconnectTimer s;
     controller := v; sockets := sockets s; timers := timers s;
     requests := requests s; next_id := next_id s; delivered := delivered s;
     console := console s |}.

Definition set_sockets (v : gmap nat ReadyState) (s : Session) : Session :=
  {| socket := socket s; stopped := stopped s;
     fallbackTimer := fallbackTimer s; reconnectTimer := reconnectTimer s;
     controller := controller s; sockets := v; timers := timers s;
     requests := requests s; next_id := next_id s; delivered := delivered s;
     console := console s |}.

Definition set_timers (v : gmap nat TimerCallback) (s : Session) : Session :=
  {| socket := socket s; stopped := stopped s;
     fallbackTimer := fallbackTimer s; reconnectTimer := reconnectTimer s;
     controller := controller s; sockets := sockets s; timers := v;
     requests := requests s; next_id := next_id s; delivered := delivered s;
     console := console s |}.

Definition set_requests (v : gmap nat bool) (s : Session) : Session :=
  {| socket := socket s; stopped := stopped s;
     fallbackTimer := fallbackTimer s; reconnectTimer := reconnectTimer s;
     controller := controller s; sockets := sockets s; timers := timers s;
     requests := v; next_id := next_id s; delivered := delivered s;
     console := console s |}.

Definition set_next_id (v : nat) (s : Session) : Session :=
  {| socket := socket s; stopped := stopped s;
     fallbackTimer := fallbackTimer s; reconnectTimer := reconnectTimer s;
     controller := controller s; sockets := sockets s; timers := timers s;
     requests := requests s; next_id := v; delivered := delivered s;
     console := console s |}.

Definition set_delivered (v : list json) (s : Session) : Session :=
  {| socket := socket s; stopped := stopped s;
     fallbackTimer := fallbackTimer s; reconnectTimer := reconnectTimer s;
     controller := controller s; sockets := sockets s; timers := timers s;
     requests := requests s; next_id := next_id s; delivered := v;
     console := console s |}.

Definition set_console (v : list Diagnostic) (s : Session) : Session :=
  {| socket := socket s; stopped := stopped s;
     fallbackTimer := fallbackTimer s; reconnectTimer := reconnectTimer s;
     controller := controller s; sockets := sockets s; timers := timers s;
     requests := requests s; next_id := next_id s; delivered := delivered s;
     console := v |}.

Definition fresh (s : Session) : Session := set_next_id (S (next_id s)) s.

(** [listener(state)]: the call is recorded; the listener returns normally. *)
Definition listener (state : json) (s : Session) : Session :=
  set_delivered (delivered s ++ [state]) s.

Definition log (d : Diagnostic) (s : Session) : Session :=
  set_console (console s ++ [d]) s.

(** [window.clearTimeout(id)] *)
Definition clearTimeout (id : nat) (s : Session) : Session :=
  set_timers (delete id (timers s)) s.

(** [controller.abort()] on the controller of request [id]: its signal is
    aborted if the request is still outstanding. *)
Definition abort (id : nat) (s : Session) : Session :=
  set_requests (alter (λ _, true) id (requests s)) s.

(** [socket.close()] *)
Definition close (id : nat) (s : Session) : Session :=
  set_sockets
    (alter (λ st, match st with CONNECTING | OPEN => CLOSING | _ => st end)
       id (sockets s)) s.

(** ** The closures of [connectStateStream] *)

Definition stopFallback (s : Session) : Session :=
  let s1 :=
    match fallbackTimer s with
    | Some id => set_fallbackTimer None (clearTimeout id s)
    | None => s
    end in
  match controller s1 with
  | Some c => set_controller None (abort c s1)
  | None => s1
  end.

(** [controller?.abort()] *)
Definition abort_previous (s : Session) : Session :=
  match controller s with
  | Some c => abort c s
  | None => s
  end.

(** [controller = new AbortController()] and the call
    [fetchState(controller.signal)], which issues the request. *)
Definition issue_request (s : Session) : Session :=
  let id := next_id s in
  set_controller (Some id)
    (set_requests (<[id := false]> (requests s)) (fresh s)).

(** [pollState], up to its [await]: the request is issued and the function
    is suspended. *)
Definition pollState (s : Session) : Session :=
  if stopped s then s else issue_request (abort_previous s).

(** [pollState], from its [await] on, when the request has settled. *)
Definition pollState_resume (outcome : Outcome) (s : Session) : Session :=
  let s1 :=
    match outcome with
    | Resolved state => if truthy state then listener state s else s
    | Rejected => log fallback_request_failed s
    end in
  let id := next_id s1 in
  set_fallbackTimer (Some id)
    (set_timers (<[id := cb_pollState]> (timers s1)) (fresh s1)).

Definition ensureFallback (s : Session) : Session :=
  match fallbackTimer s with
  | None => pollState s
  | Some _ => s
  end.

Definition scheduleReconnect (s : Session) : Session :=
  if bool_decide (reconnectTimer s ≠ None) || stopped s then s
  else
    let id := next_id s in
    set_reconnectTimer (Some id)
      (set_timers (<[id := cb_reconnect]> (timers s)) (fresh s)).

(** [connectSocket]; [throws] tells whether [new WebSocket(wsEndpoint)]
    throws.  The four handlers below are attached to the new socket. *)
Definition connectSocket (throws : bool) (s : Session) : Session :=
  if stopped s then s
  else if throws then
    scheduleReconnect (ensureFallback (log unable_to_open s))
  else
    let id := next_id s in
    set_socket (Some id)
      (set_sockets (<[id := CONNECTING]> (sockets s)) (fresh s)).

Definition onopen (s : Session) : Session := stopFallback s.

Definition onerror (s : Session) : Session :=
  ensureFallback (log stream_error s).

Definition onclose (s : Session) : Session :=
  scheduleReconnect (ensureFallback s).

(** The function handed to [setTimeout] by [scheduleReconnect]. *)
Definition reconnect (throws : bool) (s : Session) : Session :=
  connectSocket throws (set_reconnectTimer None s).

Definition cleanup (s : Session) : Session :=
  let s1 := stopFallback (set_stopped true s) in
  let s2 :=
    match reconnectTimer s1 with
    | Some id => set_reconnectTimer None (clearTimeout id s1)
    | None => s1
    end in
  match socket s2 with
  | Some id => close id s2
  | None => s2
  end.

(** The state in which [connectStateStream] calls [connectSocket]. *)
Definition initial : Session :=
  {| socket := None; stopped := false; fallbackTimer := None;
     reconnectTimer := None; controller := None;
     sockets := ∅; timers := ∅; requests := ∅; next_id := 0%nat;
     delivered := []; console := [] |}.

(** [connectStateStream(listener)] in a browser, up to its [return cleanup]. *)
Definition connectStateStream (throws : bool) : Session :=
  connectSocket throws initial.

(** ** The session as a transition system

    What happens to a session between two tasks of the event loop: a socket
    event, a timeout, the settling of a request, or the caller using the
    handle it was given.  [TimerFired] carries what [new WebSocket] will do
    if the timeout is the reconnect timeout. *)

Inductive Event :=
  | SocketOpened (sock : nat)
  | SocketMessage (sock : nat) (data : string)
  | SocketError (sock : nat)
  | SocketClosed (sock : nat)
  | TimerFired (id : nat) (throws : bool)
  | FetchSettled (req : nat) (outcome : Outcome)
  | Detach.

Definition is_resolved (outcome : Outcome) : bool :=
  match outcome with Resolved _ => true | Rejected => false end.

Section session.

(** [JSON.parse]; [None] when it throws. *)
Variable JSON_parse : string → option json.

Definition onmessage (data : string) (s : Session) : Session :=
  match JSON_parse data with
  | Some payload =>
      let state := state_of payload in
      if truthy state then listener state s else s
  | None => log failed_to_parse s
  end.

(** A step is defined when the browser can produce the event: [open] on a
    connecting socket, [message] on an open one, [error] and [close] on a
    socket not yet closed, a timeout that is pending, a request that is
    outstanding - and an aborted request can only be rejected. *)
Definition step (s : Session) (e : Event) : option Session :=
  match e with
  | SocketOpened sock =>
      match sockets s !! sock with
      | Some CONNECTING =>
          Some (onopen (set_sockets (<[sock := OPEN]> (sockets s)) s))
      | _ => None
      end
  | SocketMessage sock data =>
      match sockets s !! sock with
      | Some OPEN => Some (onmessage data s)
      | _ => None
      end
  | SocketError sock =>
      match sockets s !! sock with
      | Some CLOSED | None => None
      | Some _ => Some (onerror s)
      end
  | SocketClosed sock =>
      match sockets s !! sock with
      | Some CLOSED | None => None
      | Some _ =>
          Some (onclose (set_sockets (<[sock := CLOSED]> (sockets s)) s))
      end
  | TimerFired id throws =>
      match timers s !! id with
      | Some cb =>
          let s1 := set_timers (delete id (timers s)) s in
          Some match cb with
               | cb_pollState => pollState s1
               | cb_reconnect => reconnect throws s1
               end
      | None => None
      end
  | FetchSettled req outcome =>
      match requests s !! req with
      | Some aborted =>
          if aborted && is_resolved outcome then None
          else Some (pollState_resume outcome
                       (set_requests (delete req (requests s)) s))
      | None => None
      end
  | Detach => Some (cleanup s)
  end.

Fixpoint run (s : Session) (events : list Event) : option Session :=
  match events with
  | [] => Some s
  | e :: rest =>
      match step s e with
      | Some s' => run s' rest
      | None => None
      end
  end.

(** The states a session can be in. *)
Definition reachable (s : Session) : Prop :=
  ∃ throws events, run (connectStateStream throws) events = Some s.

(** What a message contributes to the listener, and to the console. *)
Definition accepted (data : string) : option json :=
  match JSON_parse data with
  | Some payload =>
      if truthy (state_of payload) then Some (state_of payload) else None
  | None => None
  end.

Definition complaint (data : string) : option Diagnostic :=
  match JSON_parse data with
  | Some _ => None
  | None => Some failed_to_parse
  end.

End session.

(** ** Predicates on sessions *)

(** A request is in flight while it is outstanding and its signal is not
    aborted. *)
Definition in_flight (s : Session) (id : nat) : Prop :=
  requests s !! id = Some false.

(** Whatever is in flight is the request of [controller]. *)
Definition controlled (s : Session) : Prop :=
  ∀ id, in_flight s id → controller s = Some id.

(** Every socket that is not closed is the one in [socket]. *)
Definition current_socket (s : Session) : Prop :=
  ∀ id st, sockets s !! id = Some st → st ≠ CLOSED → socket s = Some id.

(** A pending reconnect timeout is the one in [reconnectTimer], and it is
    pending only while every socket is closed. *)
Definition reconnect_pending (s : Session) : Prop :=
  ∀ id, timers s !! id = Some cb_reconnect →
        reconnectTimer s = Some id ∧
        ∀ sid st, sockets s !! sid = Some st → st = CLOSED.

Record invariant (s : Session) : Prop := {
  inv_controlled : controlled s;
  inv_socket : current_socket s;
  inv_reconnect : reconnect_pending s
}.

Definition all_closed (s : Session) : Prop :=
  ∀ sid st, sockets s !! sid = Some st → st = CLOSED.

Definition no_reconnect_pending (s : Session) : Prop :=
  ∀ id, timers s !! id ≠ Some cb_reconnect.

(** A detached session: stopped, every outstanding request aborted, no
    socket connecting or open. *)
Definition quiet (s : Session) : Prop :=
  stopped s = true ∧
  (∀ id aborted, requests s !! id = Some aborted → aborted = true) ∧
  (∀ id st, sockets s !! id = Some st → st = CLOSING ∨ st = CLOSED).

(** Streaming: some socket is open, so a message on it calls the listener. *)
Definition streaming (s : Session) : Prop :=
  ∃ sock, sockets s !! sock = Some OPEN.

(** Polling: the session is not stopped, and a poll timeout is pending or a
    request is in flight, so the poll loop will call the listener. *)
Definition polling (s : Session) : Prop :=
  stopped s = false ∧
  ((∃ id, timers s !! id = Some cb_pollState) ∨ ∃ id, in_flight s id).

(** ** Sample runs *)

Definition quote : string := String (ascii_of_nat 34) EmptyString.

(** The text of a bare snapshot, [{ t: 7 }], and of a wrapped one,
    [{ state: { t: 8 } }], as they arrive on the socket. *)
Definition text_bare : string :=
  String.append "{" (String.append quote (String.append "t"
    (String.append quote ":7}"))).

Definition text_wrapped : string :=
  String.append "{" (String.append quote (String.append "state"
    (String.append quote (String.append ":{" (String.append quote
      (String.append "t" (String.append quote ":8}}"))))))).

Definition snapshot (tick : Z) : json := JObj [("t", JNum tick)].

(** A parser for the sample runs: it knows the two texts above and rejects
    every other text, such as ["{oops"]. *)
Definition sample_parse (data : string) : option json :=
  if String.eqb data text_bare then Some (snapshot 7)
  else if String.eqb data text_wrapped then
    Some (JObj [("state", snapshot 8)])
  else None.

(** The socket has opened. *)
Definition streaming_session : Session :=
  default initial
    (run sample_parse (connectStateStream false) [SocketOpened 0%nat]).

(** The connection attempt has failed with an [error] and a [close] event:
    each of the two handlers has started a poll cycle. *)
Definition failed_connection : Session :=
  default initial
    (run sample_parse (connectStateStream false)
       [SocketError 0%nat; SocketClosed 0%nat]).

(** The first connection attempt is refused, the fallback issues request 1,
    and the caller detaches before the request settles. *)
Definition detached_while_polling : Session :=
  default initial
    (run sample_parse (connectStateStream false) [SocketClosed 0%nat; Detach]).

(** The connection is refused; the fallback delivers a snapshot; the
    reconnect timeout fires and a second socket is created; the poll timeout
    fires and request 5 is issued; the second socket opens, which aborts
    request 5; the abort is reported to [pollState]. *)
Definition reconnected_while_polling : list Event :=
  [ SocketClosed 0%nat; FetchSettled 1%nat (Resolved (snapshot 1));
    TimerFired 2%nat false; TimerFired 3%nat false;
    SocketOpened 4%nat; FetchSettled 5%nat Rejected ].

(** What follows: a message on the open socket, the poll timeout, the
    answer to its request, another message. *)
Definition then_both_deliver : list Event :=
  [ SocketMessage 4%nat text_bare; TimerFired 6%nat false;
    FetchSettled 7%nat (Resolved (snapshot 9));
    SocketMessage 4%nat text_wrapped ].

End StreamClient.

(* ===================================================================== *)
(** * Further views of the merger's input and output *)
(* ===================================================================== *)

Module MergerViews.

Import TimeSeriesMerger.

(** The ticks of all records of a series, in visiting order. *)
Definition ticks_of (series : MetricsSeries) : list Z :=
  (λ x, t x.2) <$> samples series.

(** The bucket that one record of one run gives when it is alone at its
    tick: [{ t: record.t, [`${runId}-${metric}`]: value ?? 0 }]. *)
Definition row_of_record (runId metric : string) (record : MetricsRecord)
    : bucket :=
  <[ key runId metric := coalesce0 (field record metric) ]>
    {[ "t" := t record ]}.

End MergerViews.

(* ===================================================================== *)
(** * The metrics page and the chart ([app/metrics/page.tsx],
      [components/MetricsChart.tsx]) *)
(* ===================================================================== *)

Module MetricsPage.

Import TimeSeriesMerger.

(** The [series] state of the page, an object keyed by run identifier, as a
    finite map. *)
Abbreviation SeriesStore := (gmap string (list MetricsRecord)).

(** A list [l] is an enumeration of the object [obj] when it has each key of
    [obj] once, with its value; [Object.entries(obj)] and [Object.keys(obj)]
    return one such enumeration. *)
Definition enumerates (l : MetricsSeries) (obj : SeriesStore) : Prop :=
  NoDup l.*1 ∧ list_to_map l = obj.

(** [prev.includes(runId)] *)
Definition includes (runId : string) (prev : list string) : bool :=
  bool_decide (runId ∈ prev).

(** The updater that [toggleRun(runId)] hands to [setSelected]: the new
    selection, and whether [loadMetrics(runId)] is called. *)
Definition toggleRun (runId : string) (prev : list string)
    : list string * bool :=
  if includes runId prev then (filter (λ id, id ≠ runId) prev, false)
  else if (3 <=? length prev)%nat then (prev, false)
  else (prev ++ [runId], true).

(** The selection after a sequence of clicks. *)
Definition toggles (start : list string) (clicks : list string) : list string :=
  foldl (λ selected runId, (toggleRun runId selected).1) start clicks.

(** [setSeries((prev) => ({ ...prev, [runId]: result.records }))] *)
Definition store_records (runId : string) (records : list MetricsRecord)
    (prev : SeriesStore) : SeriesStore :=
  <[ runId := records ]> prev.

(** The [useMemo] of [selectedSeries]; an array, even an empty one, passes
    [if (series[runId])]. *)
Definition selectedSeries (selected : list string) (series : SeriesStore)
    : SeriesStore :=
  foldl (λ entries runId,
           match series !! runId with
           | Some records => <[ runId := records ]> entries
           | None => entries
           end) ∅ selected.

(** [const COLORS] of the chart. *)
Definition COLORS : list string := ["#06b6d4"; "#f97316"; "#a855f7"].

(** [COLORS[index % COLORS.length]]; [None] is [undefined]. *)
Definition stroke (index : nat) : option string :=
  COLORS !! (index mod length COLORS)%nat.

(** [dataKey={`${runId}-${metric}`}] *)
Definition dataKey (runId metric : string) : string :=
  String.append runId (String.append "-" metric).

(** The [<Line>] elements of the chart, by their [dataKey] and [stroke]:
    [runIds.map((runId, index) => ...)]. *)
Definition lines (runIds : list string) (metric : string)
    : list (string * option string) :=
  imap (λ index runId, (dataKey runId metric, stroke index)) runIds.

(** The metrics of two runs, loaded. *)
Definition loaded_series : SeriesStore :=
  {[ "runA" := [rec_vc 0 5; rec_vc 1 7]; "runB" := [rec_vc 1 3] ]}.

(** ** The CSV export *)




Section export.

(** The text that [join] gives a number. *)
Variable String_of_number : Z → string.





End export.

End MetricsPage.

(* ===================================================================== *)
(** * What a user does with the player *)
(* ===================================================================== *)

Module PlayerActions.

Import PlaybackEngine.

(** The events that reach the player while its frames stay the same: the
    interval fires, the slider reports a value, the play button is
    pressed. *)
Inductive Action :=
  | Tick
  | SliderChange (value : Z)
  | PressPlay (selectedRun : option string) (loading : bool).

Definition act (frames : list ReplayFrame) (st : State) (a : Action) : State :=
  match a with
  | Tick => tick frames st
  | SliderChange value => onValueChange value st
  | PressPlay selectedRun loading => press_play selectedRun loading frames st
  end.

(** What the slider is configured to report: nothing while it is disabled,
    and otherwise a value from [min] to [max]. *)
Definition offered (frames : list ReplayFrame) (a : Action) : Prop :=
  match a with
  | SliderChange value =>
      slider_disabled frames = false ∧
      slider_min <= value <= slider_max frames
  | _ => True
  end.

(** The cursor points at a frame of the sequence. *)
Definition inside (frames : list ReplayFrame) (st : State) : Prop :=
  0 <= cursor st < length_of frames.

End PlayerActions.

(* ===================================================================== *)
(** * More predicates on sessions of the StreamClient *)
(* ===================================================================== *)

Module StreamInvariants.

Import StreamClient.

(** The fallback is running: a poll timeout is pending, or a request is
    outstanding (when it settles, [pollState] schedules the next
    timeout). *)
Definition fallback_running (s : Session) : Prop :=
  (∃ id, timers s !! id = Some cb_pollState) ∨
  (∃ id, is_Some (requests s !! id)).

(** A reconnect attempt is scheduled: the timeout in [reconnectTimer] is
    pending. *)
Definition reconnect_scheduled (s : Session) : Prop :=
  ∃ id, reconnectTimer s = Some id ∧ timers s !! id = Some cb_reconnect.

(** How the two timer variables relate to the pending timeouts. *)
Record timer_invariant (s : Session) : Prop := {
  tinv_fresh :
    ∀ id cb, timers s !! id = Some cb → (id < next_id s)%nat;
  tinv_fallback :
    ∀ ft, fallbackTimer s = Some ft →
          (ft < next_id s)%nat ∧ timers s !! ft ≠ Some cb_reconnect;
  tinv_reconnect :
    ∀ id, reconnectTimer s = Some id → timers s !! id = Some cb_reconnect;
  tinv_running :
    ∀ ft, fallbackTimer s = Some ft → stopped s = false →
          timers s !! ft = Some cb_pollState ∨
          ∃ id, is_Some (requests s !! id)
}.

(** ** More sample runs *)

(** The connection was refused, the fallback has delivered one snapshot and
    has issued its next request (4); the reconnect timeout (2) is
    pending. *)
Definition polling_session : Session :=
  default initial
    (run sample_parse (connectStateStream false)
       [ SocketClosed 0%nat; FetchSettled 1%nat (Resolved (snapshot 1));
         TimerFired 3%nat false ]).

(** The same, but the reconnect timeout has fired first: a second socket
    (4) is connecting while request 5 is outstanding. *)
Definition reconnecting_session : Session :=
  default initial
    (run sample_parse (connectStateStream false)
       [ SocketClosed 0%nat; FetchSettled 1%nat (Resolved (snapshot 1));
         TimerFired 2%nat false; TimerFired 3%nat false ]).

(** What may follow a detach of [polling_session]: the aborted request is
    rejected, and the timeout that this schedules fires. *)
Definition after_detach : list Event :=
  [ FetchSettled 4%nat Rejected; TimerFired 5%nat false ].

End StreamInvariants.

(* ===================================================================== *)
(** * The API client ([lib/api.ts]) and the proxy route
      ([app/api/[...slug]/route.ts]) *)
(* ===================================================================== *)

Module ApiClient.

Import StreamClient.

(** A [Response], as far as the client reads it: the status and the text
    of the body. *)
Record Response := {
  status : Z;
  text : string
}.

(** [response.ok] *)
Definition ok (response : Response) : bool :=
  (200 <=? status response) && (status response <=? 299).

(** How the promise of [fetch] settles: it is rejected (network failure,
    abort), or fulfilled with a response. *)
Inductive Fetched := Refused | Responded (response : Response).

(** The exceptions of the module, one constructor per [throw] and one for
    the [TypeError] of reading a property of [null].  The texts of the
    messages are not modelled, only what they are made of. *)
Inductive ApiError :=
  | unreachable                      (* "CityFlow API is unreachable. ..." *)
  | unexpected_payload (code : Z)    (* `Unexpected JSON payload (${status})...` *)
  | reported (message : json)        (* new Error(message), message from the body *)
  | api_error                        (* "CityFlow API error" *)
  | request_failed (code : Z)        (* `Request failed (${status})` *)
  | type_error.

(** [data.name] and [data?.name] where [data] is not [null]; [data?.name]
    where it is.  [None] is [undefined]: a parsed array, string, number or
    boolean has none of the properties the module reads. *)
Definition member (name : string) (data : json) : option json :=
  match data with
  | JObj props => prop name props
  | _ => None
  end.

(** [typeof data === "object"] *)
Definition typeof_object (data : json) : bool :=
  match data with
  | JNull | JArr _ | JObj _ => true
  | JBool _ | JNum _ | JStr _ => false
  end.

(** [data.ok === false] *)
Definition ok_is_false (data : json) : bool :=
  match member "ok" data with
  | Some (JBool false) => true
  | _ => false
  end.

(** [new Error(message ?? fallback)] *)
Definition error_of (message : option json) (fallback : ApiError) : ApiError :=
  match message with
  | None | Some JNull => fallback
  | Some m => reported m
  end.

Section client.

(** [response.json()] on the text of the body; [None] when it rejects. *)
Variable JSON_parse : string → option json.

Definition parseJson (response : Response) : ApiError + json :=
  match JSON_parse (text response) with
  | None => inl (unexpected_payload (status response))
  | Some data =>
      if truthy data && typeof_object data && ok_is_false data then
        inl (error_of (member "message" data) api_error)
      else if negb (ok response) then
        inl (error_of (member "message" data)
               (request_failed (status response)))
      else inr data
  end.

Definition apiFetch (fetched : Fetched) : ApiError + json :=
  match fetched with
  | Refused => inl unreachable
  | Responded response => parseJson response
  end.

(** [data.state ?? null] where [data] is not [null] *)
Definition state_or_null (data : json) : json :=
  match member "state" data with
  | None | Some JNull => JNull
  | Some state => state
  end.

(** [fetchState]: reading [data.state] throws when [data] is [null]. *)
Definition fetchState (fetched : Fetched) : ApiError + json :=
  match apiFetch fetched with
  | inl e => inl e
  | inr JNull => inl type_error
  | inr data => inr (state_or_null data)
  end.

(** What [pollState] gets from its [await fetchState(controller.signal)]. *)
Definition settle (fetched : Fetched) : Outcome :=
  match fetchState fetched with
  | inr state => Resolved state
  | inl _ => Rejected
  end.

End client.

(** ** The proxy route *)

(** [{ ok: false, passthrough: true }] *)
Definition passthrough : json :=
  JObj [("ok", JBool false); ("passthrough", JBool true)].

Section route.

Variable JSON_stringify : json → string.

(** The statuses with which [new Response(body, { status })] takes a body
    that is not [null]; with any other status the constructor throws. *)
Variable takes_body : Z → bool.

(** [text?.length ? text : JSON.stringify({ ok: false, passthrough: true })] *)
Definition safe (body : string) : string :=
  if (String.length body =? 0)%nat then JSON_stringify passthrough else body.

(** The response of [proxy], from the response [res] of the upstream:
    [new Response(safe, { status: res.status, ... })]; [None] when the
    constructor throws. *)
Definition proxy (res : Response) : option Response :=
  if takes_body (status res)
  then Some {| status := status res; text := safe (text res) |}
  else None.

End route.

(** ** Samples *)

(** The text [{"ok":false,"passthrough":true}]. *)
Definition passthrough_text : string :=
  String.append "{" (String.append quote (String.append "ok"
    (String.append quote (String.append ":false," (String.append quote
      (String.append "passthrough" (String.append quote ":true}"))))))).

Definition sample_stringify (_ : json) : string := passthrough_text.

(** The statuses from 200 to 599 that allow a body. *)
Definition sample_takes_body (code : Z) : bool :=
  (200 <=? code) && (code <=? 599)
  && negb ((code =? 204) || (code =? 205) || (code =? 304)).

(** A parser for the samples: the texts of [sample_parse], and the one
    above. *)
Definition api_parse (data : string) : option json :=
  if String.eqb data passthrough_text then Some passthrough
  else sample_parse data.

(** The upstream answers a request with status 200 and no body. *)
Definition empty_answer : Response := {| status := 200; text := EmptyString |}.

(** The upstream answers a poll with a wrapped snapshot, and with a bare
    one. *)
Definition wrapped_answer : Response := {| status := 200; text := text_wrapped |}.

Definition bare_answer : Response := {| status := 200; text := text_bare |}.

End ApiClient.

(* ===================================================================== *)
(** * Properties of the TimeSeriesMerger *)
(* ===================================================================== *)

Module MergerTheory.

Import TimeSeriesMerger.

(** The worked example of the specification. *)
Example mergeSeries_example :
  mergeSeries example_series "vehicle_count" =
  [ {[ "t" := 0; "runA-vehicle_count" := 5 ]} ;
    {[ "t" := 1; "runA-vehicle_count" := 7; "runB-vehicle_count" := 3 ]} ].
Proof. vm_compute. reflexivity. Qed.

(** ** The template string as a key *)

Lemma append_length (a b : string) :
  String.length (String.append a b) = (String.length a + String.length b)%nat.
Proof. induction a as [|c a IH]; simpl; [reflexivity|]. by rewrite IH. Qed.

Lemma append_cancel_r (a b s : string) :
  String.append a s = String.append b s → a = b.
Proof.
  revert b. induction a as [|c a IH]; intros [|d b] Heq.
  - reflexivity.
  - apply (f_equal String.length) in Heq.
    rewrite !append_length in Heq. simpl in Heq. lia.
  - apply (f_equal String.length) in Heq.
    rewrite !append_length in Heq. simpl in Heq. lia.
  - injection Heq as -> Heq. f_equal. by apply IH.
Qed.

(** Distinct runs write distinct columns. *)
Lemma key_inj (metric r1 r2 : string) : key r1 metric = key r2 metric → r1 = r2.
Proof. apply append_cancel_r. Qed.

(** No column can overwrite the property [t] of a bucket. *)
Lemma key_ne_t (runId metric : string) : key runId metric ≠ "t".
Proof.
  unfold key. destruct runId as [|c [|d r]]; discriminate.
Qed.

(** ** The insertion-ordered map, seen as a finite map *)

Lemma Map_get_to_map (m : TimeMap) (k : Z) : Map_get m k = to_map m !! k.
Proof.
  unfold to_map. induction m as [|[k' v] m IH]; simpl; [done|].
  rewrite lookup_insert. by destruct (decide (k' = k)).
Qed.

Lemma Map_set_to_map (m : TimeMap) (k : Z) (v : bucket) :
  to_map (Map_set m k v) = <[k := v]> (to_map m).
Proof.
  unfold to_map. induction m as [|[k' v'] m IH]; simpl; [done|].
  destruct (decide (k' = k)) as [->|Hne]; simpl.
  - by rewrite insert_insert_eq.
  - rewrite IH. by apply insert_insert_ne.
Qed.

Lemma Map_set_keys (m : TimeMap) (k k' : Z) (v : bucket) :
  k' ∈ (Map_set m k v).*1 ↔ k' = k ∨ k' ∈ m.*1.
Proof.
  induction m as [|[k0 v0] m IH]; simpl.
  - rewrite list_elem_of_singleton. set_solver.
  - destruct (decide (k0 = k)) as [->|Hne]; csimpl; set_solver.
Qed.

Lemma Map_set_NoDup (m : TimeMap) (k : Z) (v : bucket) :
  NoDup m.*1 → NoDup (Map_set m k v).*1.
Proof.
  induction m as [|[k0 v0] m IH]; csimpl; intros Hnd.
  - apply NoDup_singleton.
  - apply NoDup_cons in Hnd as [Hk0 Hnd].
    destruct (decide (k0 = k)) as [->|Hne]; csimpl.
    + by apply NoDup_cons.
    + apply NoDup_cons. split; [|by apply IH].
      rewrite Map_set_keys. intros [?|?]; congruence.
Qed.

(** ** The accumulation, on finite maps *)

Lemma add_record_to_map r metric byTime record :
  to_map (add_record r metric byTime record) = addM r metric (to_map byTime) record.
Proof.
  unfold add_record, addM. by rewrite Map_set_to_map, Map_get_to_map.
Qed.

Lemma add_run_to_map metric byTime entry :
  to_map (add_run metric byTime entry) = runM metric (to_map byTime) entry.
Proof.
  destruct entry as [r records]. unfold add_run, runM. simpl.
  revert byTime. induction records as [|record records IH]; intros byTime;
    simpl; [done|].
  by rewrite IH, add_record_to_map.
Qed.

Lemma add_run_NoDup metric byTime entry :
  NoDup byTime.*1 → NoDup (add_run metric byTime entry).*1.
Proof.
  destruct entry as [r records]. unfold add_run. simpl.
  revert byTime. induction records as [|record records IH]; intros byTime Hnd;
    simpl; [done|].
  apply IH. unfold add_record. by apply Map_set_NoDup.
Qed.

Lemma foldl_add_run_to_map metric series byTime :
  to_map (foldl (add_run metric) byTime series)
  = foldl (runM metric) (to_map byTime) series.
Proof.
  revert byTime. induction series as [|entry series IH]; intros byTime;
    simpl; [done|].
  by rewrite IH, add_run_to_map.
Qed.

Lemma accumulate_to_map series metric :
  to_map (accumulate series metric) = foldl (runM metric) ∅ series.
Proof. unfold accumulate. by rewrite foldl_add_run_to_map. Qed.

Lemma accumulate_NoDup series metric : NoDup (accumulate series metric).*1.
Proof.
  unfold accumulate.
  assert (NoDup ([] : TimeMap).*1) as Hnil by constructor.
  revert Hnil. generalize ([] : TimeMap).
  induction series as [|entry series IH]; intros byTime Hnd; simpl; [done|].
  by apply IH, add_run_NoDup.
Qed.

Lemma elem_of_samples (series : MetricsSeries) r record :
  (r, record) ∈ samples series ↔
  ∃ records, (r, records) ∈ series ∧ record ∈ records.
Proof.
  unfold samples. rewrite list_elem_of_bind. split.
  - intros ([r' records] & Hin & Hs). simpl in Hin.
    apply list_elem_of_fmap in Hin as (record' & Heq & Hrec).
    injection Heq as -> ->. eauto.
  - intros (records & Hs & Hrec). exists (r, records). split; [|done].
    simpl. apply list_elem_of_fmap. eauto.
Qed.

Lemma runM_stepM metric M r records :
  runM metric M (r, records) = foldl (stepM metric) M (pair r <$> records).
Proof.
  unfold runM. simpl. revert M.
  induction records as [|record records IH]; intros M; simpl; [done|].
  by rewrite IH.
Qed.

Lemma foldl_runM_samples metric series M :
  foldl (runM metric) M series = foldl (stepM metric) M (samples series).
Proof.
  revert M. induction series as [|[r records] series IH]; intros M; [done|].
  unfold samples. simpl. rewrite foldl_app. fold (samples series).
  by rewrite <- IH, runM_stepM.
Qed.

Lemma accumulate_samples series metric :
  to_map (accumulate series metric) = foldl (stepM metric) ∅ (samples series).
Proof. by rewrite accumulate_to_map, foldl_runM_samples. Qed.

(** ** What a bucket holds *)

Lemma stepM_lookup metric M (x : string * MetricsRecord) k :
  stepM metric M x !! k =
  if decide (t x.2 = k)
  then Some (<[ key x.1 metric := coalesce0 (field x.2 metric) ]>
               (default {[ "t" := k ]} (M !! k)))
  else M !! k.
Proof.
  unfold stepM, addM. rewrite lookup_insert.
  destruct (decide (t x.2 = k)) as [<-|]; done.
Qed.

Lemma stepM_fold_ok metric l k :
  bucket_ok metric l k (foldl (stepM metric) ∅ l !! k).
Proof.
  induction l as [|[r0 rec0] l IH] using rev_ind.
  - simpl. rewrite lookup_empty. intros x Hx. by apply elem_of_nil in Hx.
  - rewrite foldl_app. simpl. rewrite stepM_lookup. simpl.
    set (M := foldl (stepM metric) ∅ l) in *.
    destruct (decide (t rec0 = k)) as [Ht|Ht].
    + simpl. split; [|split].
      * rewrite lookup_insert_ne by apply key_ne_t.
        destruct (M !! k) as [b|]; simpl in *.
        -- by destruct IH.
        -- by rewrite lookup_singleton_eq.
      * exists (r0, rec0). split; [|done]. apply elem_of_app. right.
        by apply list_elem_of_singleton.
      * intros r. destruct (decide (r = r0)) as [->|Hr].
        -- rewrite lookup_insert_eq. split; [|eauto].
           intros _. exists rec0. split; [|done].
           apply elem_of_app. right. by apply list_elem_of_singleton.
        -- rewrite lookup_insert_ne by (intros Hk; apply key_inj in Hk; done).
           split.
           ++ intros Hsome. destruct (M !! k) as [b|]; simpl in *.
              ** destruct IH as (_ & _ & IH). apply IH in Hsome as (record & ? & ?).
                 exists record. split; [|done]. apply elem_of_app. by left.
              ** rewrite lookup_singleton_ne in Hsome by (symmetry; apply key_ne_t).
                 by destruct Hsome.
           ++ intros (record & Hin & Hrec).
              apply elem_of_app in Hin as [Hin|Hin].
              ** destruct (M !! k) as [b|]; simpl in *.
                 --- destruct IH as (_ & _ & IH). apply IH. eauto.
                 --- by destruct (IH _ Hin).
              ** apply list_elem_of_singleton in Hin. congruence.
    + destruct (M !! k) as [b|]; simpl in *.
      * destruct IH as (Hb & (x & Hx & Hxt) & IH). split; [done|]. split.
        -- exists x. split; [|done]. apply elem_of_app. by left.
        -- intros r. rewrite IH. split.
           ++ intros (record & ? & ?). exists record. split; [|done].
              apply elem_of_app. by left.
           ++ intros (record & Hin & ?).
              apply elem_of_app in Hin as [Hin|Hin]; [eauto|].
              apply list_elem_of_singleton in Hin. congruence.
      * intros x Hx. apply elem_of_app in Hx as [Hx|Hx]; [by apply IH|].
        apply list_elem_of_singleton in Hx. by subst x.
Qed.

(** ** The rows of the output *)

#[global] Instance row_le_total : Total row_le.
Proof. intros a b. unfold row_le. lia. Qed.

#[global] Instance row_le_trans : Transitive row_le.
Proof. intros a b c. unfold row_le. lia. Qed.

Lemma accumulate_lookup series metric k row :
  (k, row) ∈ accumulate series metric ↔
  to_map (accumulate series metric) !! k = Some row.
Proof. apply elem_of_list_to_map, accumulate_NoDup. Qed.

Lemma accumulate_row_ok series metric k row :
  (k, row) ∈ accumulate series metric →
  bucket_ok metric (samples series) k (Some row).
Proof.
  rewrite accumulate_lookup, accumulate_samples. intros Hrow.
  pose proof (stepM_fold_ok metric (samples series) k) as Hok.
  by rewrite Hrow in Hok.
Qed.

Lemma accumulate_row_t series metric k row :
  (k, row) ∈ accumulate series metric → row_t row = k.
Proof.
  intros Hin. apply accumulate_row_ok in Hin as (Ht & _).
  unfold row_t. by rewrite Ht.
Qed.

Lemma accumulate_times series metric :
  row_t <$> Map_values (accumulate series metric)
  = (accumulate series metric).*1.
Proof.
  unfold Map_values.
  pose proof (accumulate_row_t series metric) as Hrow.
  induction (accumulate series metric) as [|[k row] l IH]; csimpl; [done|].
  f_equal.
  - apply Hrow. by left.
  - apply IH. intros k' row' Hin. apply Hrow. by right.
Qed.

Lemma mergeSeries_perm series metric :
  mergeSeries series metric ≡ₚ Map_values (accumulate series metric).
Proof. apply merge_sort_Permutation. Qed.

Lemma mergeSeries_elem series metric row :
  row ∈ mergeSeries series metric ↔
  (row_t row, row) ∈ accumulate series metric.
Proof.
  rewrite mergeSeries_perm. unfold Map_values. rewrite list_elem_of_fmap. split.
  - intros ([k row'] & -> & Hin). simpl.
    by rewrite (accumulate_row_t _ _ _ _ Hin).
  - intros Hin. by exists (row_t row, row).
Qed.

Lemma mergeSeries_times_NoDup series metric :
  NoDup (row_t <$> mergeSeries series metric).
Proof.
  rewrite mergeSeries_perm, accumulate_times. apply accumulate_NoDup.
Qed.

Lemma strictly_sorted_times (l : list bucket) :
  StronglySorted row_le l → NoDup (row_t <$> l) →
  StronglySorted Z.lt (row_t <$> l).
Proof.
  induction 1 as [|row l Hl IH Hall]; csimpl; intros Hnd; [constructor|].
  apply NoDup_cons in Hnd as [Hrow Hnd]. constructor; [by apply IH|].
  apply Forall_fmap, Forall_forall. intros row' Hin. simpl.
  rewrite Forall_forall in Hall. specialize (Hall _ Hin). unfold row_le in Hall.
  assert (row_t row ≠ row_t row').
  { intros Heq. apply Hrow. rewrite Heq. apply list_elem_of_fmap. eauto. }
  lia.
Qed.

Lemma mergeSeries_sorted series metric :
  StronglySorted Z.lt (row_t <$> mergeSeries series metric).
Proof.
  apply strictly_sorted_times; [|apply mergeSeries_times_NoDup].
  apply StronglySorted_merge_sort; apply _.
Qed.

Lemma mergeSeries_times series metric k :
  k ∈ row_t <$> mergeSeries series metric ↔
  ∃ r records record,
    (r, records) ∈ series ∧ record ∈ records ∧ t record = k.
Proof.
  rewrite mergeSeries_perm, accumulate_times.
  pose proof (stepM_fold_ok metric (samples series) k) as Hok.
  rewrite <- accumulate_samples in Hok. split.
  - intros Hin. apply list_elem_of_fmap in Hin as ([k' row] & -> & Hin). simpl in *.
    apply accumulate_row_ok in Hin as (_ & ([r record] & Hx & Ht) & _).
    apply elem_of_samples in Hx as (records & ? & ?). by exists r, records, record.
  - intros (r & records & record & Hs & Hrec & Ht).
    destruct (to_map (accumulate series metric) !! k) as [row|] eqn:Hrow.
    + apply accumulate_lookup in Hrow. apply list_elem_of_fmap. by exists (k, row).
    + simpl in Hok. exfalso. apply (Hok (r, record)); [|done].
      apply elem_of_samples. eauto.
Qed.

(** ** The last sample of a run at a tick decides its column *)

Lemma stepM_fold_keeps metric r k v l (M : gmap Z bucket) b :
  M !! k = Some b → b !! key r metric = Some v →
  (∀ x, x ∈ l → x.1 = r → t x.2 ≠ k) →
  ∃ b', foldl (stepM metric) M l !! k = Some b' ∧ b' !! key r metric = Some v.
Proof.
  revert M b. induction l as [|[r0 rec0] l IH]; intros M b HM Hb Hl; simpl.
  - eauto.
  - pose proof (stepM_lookup metric M (r0, rec0) k) as Hstep. simpl in Hstep.
    destruct (decide (t rec0 = k)) as [Ht|Ht].
    + eapply IH; [exact Hstep| |].
      * rewrite HM. simpl. rewrite lookup_insert_ne; [done|].
        intros Hk. apply key_inj in Hk. subst r0.
        apply (Hl (r, rec0)); [by left|done|done].
      * intros x Hx. apply Hl. by right.
    + eapply IH; [by rewrite Hstep|done|].
      intros x Hx. apply Hl. by right.
Qed.

Lemma samples_app (s1 s2 : MetricsSeries) :
  samples (s1 ++ s2)%list = (samples s1 ++ samples s2)%list.
Proof. unfold samples. apply bind_app. Qed.

Lemma samples_cons r records (series : MetricsSeries) :
  samples ((r, records) :: series)
  = ((pair r <$> records) ++ samples series)%list.
Proof. reflexivity. Qed.

Lemma last_sample_wins series metric r pre record post :
  wf_series series →
  (r, (pre ++ record :: post)%list) ∈ series →
  (∀ record', record' ∈ post → t record' ≠ t record) →
  ∃ row, row ∈ mergeSeries series metric ∧ row_t row = t record ∧
         row !! key r metric = Some (coalesce0 (field record metric)).
Proof.
  intros Hwf Hin Hpost.
  apply list_elem_of_split in Hin as (s1 & s2 & ->).
  assert (r ∉ runIds s2) as Hr.
  { unfold wf_series, runIds in *. rewrite fmap_app in Hwf. csimpl in Hwf.
    apply NoDup_app in Hwf as (_ & _ & Hwf). by apply NoDup_cons in Hwf as [? _]. }
  set (series := (s1 ++ (r, (pre ++ record :: post)%list) :: s2)%list).
  assert (∃ b', to_map (accumulate series metric) !! t record = Some b' ∧
                b' !! key r metric = Some (coalesce0 (field record metric)))
    as (row & Hrow & Hkey).
  { rewrite accumulate_samples. unfold series.
    rewrite samples_app, samples_cons, fmap_app, fmap_cons.
    rewrite !foldl_app. simpl.
    set (M0 := foldl (stepM metric) (foldl (stepM metric) ∅ (samples s1))
                 (pair r <$> pre)).
    destruct (stepM_fold_keeps metric r (t record)
                (coalesce0 (field record metric)) (pair r <$> post)
                (stepM metric M0 (r, record))
                (<[ key r metric := coalesce0 (field record metric) ]>
                   (default {[ "t" := t record ]} (M0 !! t record))))
      as (b1 & Hb1 & Hk1).
    { rewrite stepM_lookup. simpl. by rewrite decide_True. }
    { apply lookup_insert_eq. }
    { intros [r' rec'] Hx _. apply list_elem_of_fmap in Hx as (? & [= -> ->] & ?).
      simpl. by apply Hpost. }
    eapply stepM_fold_keeps; [exact Hb1|exact Hk1|].
    intros [r' rec'] Hx Hr'. simpl in Hr'. subst r'. exfalso. apply Hr.
    apply elem_of_samples in Hx as (records & Hx & _).
    unfold runIds. apply list_elem_of_fmap. by exists (r, records). }
  exists row. apply accumulate_lookup in Hrow.
  pose proof (accumulate_row_t _ _ _ _ Hrow) as Ht.
  split; [|done]. apply mergeSeries_elem. by rewrite Ht.
Qed.

(** ** Runs commute *)

Lemma addM_comm metric r1 r2 (M : gmap Z bucket) a b :
  r1 ≠ r2 →
  addM r1 metric (addM r2 metric M b) a = addM r2 metric (addM r1 metric M a) b.
Proof.
  intros Hr. unfold addM.
  assert (key r1 metric ≠ key r2 metric) as Hk
    by (intros Hk; by apply key_inj in Hk).
  destruct (decide (t a = t b)) as [Heq|Hne].
  - rewrite Heq, !lookup_insert_eq, !insert_insert_eq. simpl.
    f_equal. by apply insert_insert_ne.
  - rewrite (lookup_insert_ne _ (t b) (t a)) by done.
    rewrite (lookup_insert_ne _ (t a) (t b)) by done.
    by apply insert_insert_ne.
Qed.

Lemma foldl_addM_comm metric r1 r2 (M : gmap Z bucket) l b :
  r1 ≠ r2 →
  foldl (addM r1 metric) (addM r2 metric M b) l
  = addM r2 metric (foldl (addM r1 metric) M l) b.
Proof.
  intros Hr. revert M. induction l as [|a l IH]; intros M; simpl; [done|].
  by rewrite addM_comm, IH.
Qed.

Lemma runM_comm metric (M : gmap Z bucket) e1 e2 :
  e1.1 ≠ e2.1 →
  runM metric (runM metric M e2) e1 = runM metric (runM metric M e1) e2.
Proof.
  destruct e1 as [r1 l1], e2 as [r2 l2]. unfold runM. simpl. intros Hr.
  revert M. induction l2 as [|b l2 IH]; intros M; simpl; [done|].
  by rewrite IH, foldl_addM_comm.
Qed.

Lemma foldl_runM_perm metric (s1 s2 : MetricsSeries) :
  s1 ≡ₚ s2 → NoDup s1.*1 →
  ∀ M, foldl (runM metric) M s1 = foldl (runM metric) M s2.
Proof.
  induction 1 as [|e s1 s2 Hp IH|e1 e2 s|s1 s2 s3 Hp1 IH1 Hp2 IH2];
    intros Hnd M.
  - done.
  - csimpl in *. apply NoDup_cons in Hnd as [_ Hnd]. by apply IH.
  - csimpl in *. apply NoDup_cons in Hnd as [Hne _].
    f_equal. apply runM_comm. intros Heq. apply Hne. rewrite Heq. by left.
  - rewrite IH1 by done. apply IH2. by rewrite <- Hp1.
Qed.

(** ** Properties of [mergeSeries] *)

(** C1, as stated, fails: in the specification's own example, run B has no
    record at tick 0, and the row of tick 0 has no column for run B. *)
Lemma mergeSeries_no_zero_fill :
  ¬ zero_filled example_series "vehicle_count".
Proof.
  intros Hz.
  destruct (Hz 0) with (r := "runB") (records := [rec_vc 1 3])
    as (row & Hin & Ht & Hkey).
  - exists "runA", [rec_vc 0 5; rec_vc 1 7]. split; [by left|].
    exists (rec_vc 0 5). split; [by left|done].
  - right. by left.
  - intros (record & Hin & Ht). apply list_elem_of_singleton in Hin. by subst.
  - rewrite mergeSeries_example in Hin.
    apply elem_of_cons in Hin as [->|Hin];
      [|apply list_elem_of_singleton in Hin; subst row]; by vm_compute in *.
Qed.

(** C1, amended: at every tick [k] present in the input there is a row, and
    that row has the column [<run_id>-<metric>] exactly for the runs that
    have a record at [k]; for a run without a record at [k] the key is
    absent. *)
Theorem mergeSeries_column_iff_record series metric k :
  time_present series k →
  ∃ row, row ∈ mergeSeries series metric ∧ row_t row = k ∧
    ∀ r, is_Some (row !! key r metric) ↔
         ∃ records, (r, records) ∈ series ∧ has_record_at records k.
Proof.
  intros (r0 & records0 & Hs0 & record0 & Hrec0 & Ht0).
  assert (k ∈ row_t <$> mergeSeries series metric) as Hk.
  { apply mergeSeries_times. by exists r0, records0, record0. }
  apply list_elem_of_fmap in Hk as (row & -> & Hrow).
  exists row. split; [done|]. split; [done|].
  apply mergeSeries_elem, accumulate_row_ok in Hrow as (_ & _ & Hcols).
  intros r. rewrite Hcols. split.
  - intros (record & Hx & Ht). apply elem_of_samples in Hx as (records & ? & ?).
    exists records. split; [done|]. by exists record.
  - intros (records & Hs & record & Hrec & Ht). exists record. split; [|done].
    apply elem_of_samples. eauto.
Qed.

Lemma mergeSeries_column_iff_record_witness :
  time_present example_series 0 ∧
  ∃ row, row ∈ mergeSeries example_series "vehicle_count" ∧ row_t row = 0 ∧
    ∀ r, is_Some (row !! key r "vehicle_count") ↔
         ∃ records, (r, records) ∈ example_series ∧ has_record_at records 0.
Proof.
  assert (time_present example_series 0) as Hp.
  { exists "runA", [rec_vc 0 5; rec_vc 1 7]. split; [by left|].
    exists (rec_vc 0 5). split; [by left|reflexivity]. }
  split; [exact Hp|].
  exact (mergeSeries_column_iff_record example_series "vehicle_count" 0 Hp).
Defined.

(** C7: the output has exactly one row per distinct tick of the input, in
    ascending order of [t]: the ticks of the rows are strictly increasing,
    no two rows have the same tick, and a tick is the [t] of a row exactly
    when some record of some run carries it. *)
Theorem mergeSeries_one_row_per_tick series metric :
  StronglySorted Z.lt (row_t <$> mergeSeries series metric) ∧
  NoDup (row_t <$> mergeSeries series metric) ∧
  (∀ row, row ∈ mergeSeries series metric → row !! "t" = Some (row_t row)) ∧
  ∀ k, k ∈ row_t <$> mergeSeries series metric ↔
       ∃ r records record,
         (r, records) ∈ series ∧ record ∈ records ∧ t record = k.
Proof.
  split; [apply mergeSeries_sorted|].
  split; [apply mergeSeries_times_NoDup|]. split; [|apply mergeSeries_times].
  intros row Hrow. by apply mergeSeries_elem, accumulate_row_ok in Hrow as (? & _).
Qed.

(** C6: [mergeSeries] is a function of the series and the metric alone (it
    starts from a fresh [byTime] and reads nothing else), and its output does
    not depend on the order in which the runs of the mapping are visited:
    two enumerations of one mapping give the same rows, in the same order,
    with the same entries. *)
Theorem mergeSeries_iteration_order (s1 s2 : MetricsSeries) metric :
  wf_series s1 → s1 ≡ₚ s2 →
  mergeSeries s1 metric = mergeSeries s2 metric.
Proof.
  intros Hwf Hperm.
  assert (to_map (accumulate s1 metric) = to_map (accumulate s2 metric)) as HM.
  { rewrite !accumulate_to_map. by apply foldl_runM_perm. }
  assert (accumulate s1 metric ≡ₚ accumulate s2 metric) as Hacc.
  { apply (list_to_map_inj (M := gmap Z)); [apply accumulate_NoDup..|exact HM]. }
  apply (Sorted_unique_strong row_le).
  - intros x1 x2 Hx1 Hx2 H12 H21.
    apply mergeSeries_elem in Hx1, Hx2. rewrite <- Hacc in Hx2.
    assert (row_t x1 = row_t x2) as Heq by (unfold row_le in *; lia).
    rewrite <- Heq in Hx2. apply accumulate_lookup in Hx1, Hx2. congruence.
  - apply Sorted_merge_sort, _.
  - apply Sorted_merge_sort, _.
  - rewrite !mergeSeries_perm. unfold Map_values. by rewrite Hacc.
Qed.

Lemma mergeSeries_iteration_order_witness :
  wf_series example_series ∧ example_series ≡ₚ example_series_swapped ∧
  mergeSeries example_series "vehicle_count"
  = mergeSeries example_series_swapped "vehicle_count".
Proof.
  assert (wf_series example_series) as Hwf.
  { unfold wf_series. vm_compute. repeat constructor; set_solver. }
  assert (example_series ≡ₚ example_series_swapped) as Hperm
    by apply perm_swap.
  split; [exact Hwf|]. split; [exact Hperm|].
  exact (mergeSeries_iteration_order _ _ "vehicle_count" Hwf Hperm).
Defined.

Example mergeSeries_repeated_tick :
  mergeSeries repeated_tick_series "avg_waiting"
  = [ {[ "t" := 0; "runA-avg_waiting" := 4 ]} ].
Proof. vm_compute. reflexivity. Qed.

(** C10, as stated, fails when a run has two records at one tick: the later
    record overwrites the 0 that the null of the earlier one produced. *)
Lemma mergeSeries_null_overwritten :
  wf_series repeated_tick_series ∧
  ¬ null_coerced repeated_tick_series "avg_waiting".
Proof.
  split.
  { unfold wf_series. vm_compute. repeat constructor; set_solver. }
  intros Hn.
  destruct (Hn "runA" [rec_waiting 0 None; rec_waiting 0 (Some 4)]
              (rec_waiting 0 None)) as (row & Hin & _ & Hkey).
  - by left.
  - by left.
  - reflexivity.
  - rewrite mergeSeries_repeated_tick in Hin.
    apply list_elem_of_singleton in Hin. subst row. by vm_compute in Hkey.
Qed.

(** C10, amended: when the last record that a run has at tick [t] (its only
    one, when the run has a single record there) has a null or undefined
    metric field, the row of [t] has the run's column with value 0. *)
Theorem mergeSeries_null_is_zero series metric r pre record post :
  wf_series series →
  (r, (pre ++ record :: post)%list) ∈ series →
  (∀ record', record' ∈ post → t record' ≠ t record) →
  field record metric = None →
  ∃ row, row ∈ mergeSeries series metric ∧ row_t row = t record ∧
         row !! key r metric = Some 0.
Proof.
  intros Hwf Hin Hpost Hnull.
  destruct (last_sample_wins series metric r pre record post Hwf Hin Hpost)
    as (row & Hrow & Ht & Hkey).
  rewrite Hnull in Hkey. by exists row.
Qed.

Lemma mergeSeries_null_is_zero_witness :
  ∃ row, row ∈ mergeSeries null_series "avg_waiting" ∧ row_t row = 1 ∧
         row !! key "runA" "avg_waiting" = Some 0.
Proof.
  apply (mergeSeries_null_is_zero null_series "avg_waiting" "runA"
           [rec_waiting 0 (Some 2)] (rec_waiting 1 None) []).
  - unfold wf_series. vm_compute. repeat constructor; set_solver.
  - by left.
  - intros record' Hin. by apply elem_of_nil in Hin.
  - reflexivity.
Defined.

End MergerTheory.

(* ===================================================================== *)
(** * Properties of the PlaybackEngine *)
(* ===================================================================== *)

Module PlaybackTheory.

Import PlaybackEngine.

Example seek_99 : cursor (seek three_frames 99 initial) = 2.
Proof. reflexivity. Qed.

Example seek_minus_5 :
  cursor (seek three_frames (-5) (setCursor 1 initial)) = 0.
Proof. reflexivity. Qed.

Example play_three_ticks :
  positions three_frames 3 (press_play (Some "run") false three_frames initial)
  = [1; 2; 0].
Proof. reflexivity. Qed.

Lemma length_of_pos (frames : list ReplayFrame) :
  frames ≠ [] → 0 < length_of frames.
Proof. unfold length_of. destruct frames; [done|]. simpl. lia. Qed.

(** C4: a seek request for any position [p] on a frame sequence of length
    [n] stores [p] clamped into [0, n-1]: nothing out of range is stored and
    no request is refused; the other cell is untouched.  (With no frames the
    slider is disabled and the cursor stays at 0, where the component keeps
    it.) *)
Theorem seek_clamps (frames : list ReplayFrame) (p : Z) (st : State) :
  (frames = [] → cursor st = 0) →
  cursor (seek frames p st) = Z.max 0 (Z.min (length_of frames - 1) p) ∧
  (frames ≠ [] →
   0 <= cursor (seek frames p st) <= length_of frames - 1 ∧
   (p < 0 → cursor (seek frames p st) = 0) ∧
   (length_of frames <= p → cursor (seek frames p st) = length_of frames - 1)) ∧
  playing (seek frames p st) = playing st.
Proof.
  intros Hempty.
  unfold seek, Slider_report, slider_disabled, slider_min, slider_max.
  destruct (length_of frames =? 0) eqn:Hz.
  - apply Z.eqb_eq in Hz.
    assert (frames = []) as Hnil
      by (unfold length_of in Hz; destruct frames; [done|simpl in Hz; lia]).
    rewrite (Hempty Hnil), Hz. repeat split; try done; lia.
  - apply Z.eqb_neq in Hz.
    unfold onValueChange, setCursor. cbn [cursor playing].
    assert (0 <= length_of frames) by (unfold length_of; lia).
    repeat split; lia.
Qed.

Lemma seek_clamps_witness :
  cursor (seek three_frames 99 initial) = 2 ∧
  cursor (seek three_frames (-5) initial) = 0.
Proof.
  assert (three_frames = [] → cursor initial = 0) as Hst by reflexivity.
  split.
  - exact (proj1 (seek_clamps three_frames 99 initial Hst)).
  - exact (proj1 (seek_clamps three_frames (-5) initial Hst)).
Defined.

Lemma tick_playing (frames : list ReplayFrame) (st : State) :
  playing (tick frames st) = playing st.
Proof. unfold tick. by destruct (interval_installed frames st). Qed.

Lemma ticks_S (frames : list ReplayFrame) (n : nat) (st : State) :
  ticks frames (S n) st = tick frames (ticks frames n st).
Proof. reflexivity. Qed.

Lemma tick_cursor (frames : list ReplayFrame) (st : State) :
  frames ≠ [] → playing st = true →
  0 <= cursor st < length_of frames →
  cursor (tick frames st) = (cursor st + 1) mod length_of frames.
Proof.
  intros Hne Hplay Hc. apply length_of_pos in Hne.
  unfold tick, interval_installed. rewrite Hplay.
  destruct (length_of frames =? 0) eqn:Hz; [lia|]. simpl.
  unfold advance. destruct (cursor st >=? length_of frames - 1) eqn:Hlast.
  - assert (cursor st + 1 = length_of frames) as -> by lia.
    by rewrite Z_mod_same_full.
  - rewrite Z.mod_small; lia.
Qed.

(** C5: on a non-empty frame sequence, while playing, every tick moves the
    cursor one position forward, the tick at the last position moves it to
    0, and playback goes on: after any number of ticks the engine is still
    playing with its interval installed, and the cursor has gone round the
    sequence. *)
Theorem tick_advances_and_loops (frames : list ReplayFrame) (st : State) (n : nat) :
  frames ≠ [] → playing st = true →
  0 <= cursor st < length_of frames →
  let st_n := ticks frames n st in
  playing st_n = true ∧
  interval_installed frames st_n = true ∧
  cursor st_n = (cursor st + Z.of_nat n) mod length_of frames ∧
  (cursor st_n < length_of frames - 1 →
   cursor (tick frames st_n) = cursor st_n + 1) ∧
  (cursor st_n = length_of frames - 1 → cursor (tick frames st_n) = 0).
Proof.
  intros Hne Hplay Hc. pose proof (length_of_pos frames Hne) as Hlen.
  assert (playing (ticks frames n st) = true ∧
          cursor (ticks frames n st)
          = (cursor st + Z.of_nat n) mod length_of frames) as [Hp Hcur].
  { induction n as [|n [IHp IHc]].
    - simpl. split; [done|]. rewrite Z.add_0_r, Z.mod_small; lia.
    - rewrite ticks_S. split; [by rewrite tick_playing|].
      rewrite tick_cursor; [|done|done|].
      + rewrite IHc, Zplus_mod_idemp_l. f_equal. lia.
      + rewrite IHc. apply Z.mod_pos_bound. lia. }
  simpl. split; [done|].
  assert (0 <= cursor (ticks frames n st) < length_of frames) as Hrange.
  { rewrite Hcur. apply Z.mod_pos_bound. lia. }
  split; [|split; [done|]].
  { unfold interval_installed. rewrite Hp.
    destruct (length_of frames =? 0) eqn:Hz; [lia|done]. }
  pose proof (tick_cursor frames (ticks frames n st) Hne Hp Hrange) as Htick.
  split; intros Hpos; rewrite Htick.
  - rewrite Z.mod_small; lia.
  - rewrite Hpos. replace (length_of frames - 1 + 1) with (length_of frames) by lia.
    apply Z_mod_same_full.
Qed.

Lemma tick_advances_and_loops_witness :
  let st := press_play (Some "run") false three_frames initial in
  playing (ticks three_frames 3 st) = true ∧
  cursor (ticks three_frames 3 st) = 0 ∧
  positions three_frames 3 st = [1; 2; 0].
Proof.
  simpl.
  destruct (tick_advances_and_loops three_frames
              (press_play (Some "run") false three_frames initial) 3)
    as (Hp & _ & Hc & _).
  - discriminate.
  - reflexivity.
  - vm_compute. split; [discriminate|reflexivity].
  - split; [exact Hp|]. split; [exact Hc|reflexivity].
Defined.

End PlaybackTheory.

(* ===================================================================== *)
(** * Properties of the StreamClient *)
(* ===================================================================== *)

Module StreamTheory.

Import StreamClient.

Section session.

(** [JSON.parse]; [None] when it throws. *)
Variable JSON_parse : string → option json.

(** ** Messages on the push transport *)

Lemma onmessage_spec (data : string) (s : Session) :
  delivered (onmessage JSON_parse data s) = delivered s ++ option_list (accepted JSON_parse data) ∧
  console (onmessage JSON_parse data s) = console s ++ option_list (complaint JSON_parse data) ∧
  sockets (onmessage JSON_parse data s) = sockets s ∧
  stopped (onmessage JSON_parse data s) = stopped s.
Proof.
  unfold onmessage, accepted, complaint.
  destruct (JSON_parse data) as [payload|]; simpl.
  - destruct (truthy (state_of payload)); simpl; by rewrite !app_nil_r.
  - by rewrite app_nil_r.
Qed.

Lemma run_messages (s : Session) (sock : nat) (msgs : list string) :
  sockets s !! sock = Some OPEN →
  ∃ s', run JSON_parse s (SocketMessage sock <$> msgs) = Some s' ∧
        delivered s' = delivered s ++ omap (accepted JSON_parse) msgs ∧
        console s' = console s ++ omap (complaint JSON_parse) msgs ∧
        sockets s' = sockets s ∧ stopped s' = stopped s.
Proof.
  revert s. induction msgs as [|data msgs IH]; intros s Hopen; simpl.
  - exists s. by rewrite !app_nil_r.
  - rewrite Hopen.
    destruct (onmessage_spec data s) as (Hd & Hc & Hs & Hst).
    destruct (IH (onmessage JSON_parse data s)) as (s' & Hrun & Hd' & Hc' & Hs' & Hst').
    { by rewrite Hs. }
    exists s'. split; [done|].
    rewrite Hd', Hc', Hs', Hst', Hd, Hc, Hs, Hst, <- !app_assoc.
    unfold accepted, complaint.
    destruct (JSON_parse data) as [payload|]; simpl; [|done].
    by destruct (truthy (state_of payload)).
Qed.

(** ** What each closure leaves alone *)

Lemma pollState_frame (s : Session) :
  sockets (pollState s) = sockets s ∧ timers (pollState s) = timers s ∧
  socket (pollState s) = socket s ∧
  reconnectTimer (pollState s) = reconnectTimer s ∧
  stopped (pollState s) = stopped s ∧
  delivered (pollState s) = delivered s.
Proof.
  unfold pollState, issue_request, abort_previous.
  destruct (stopped s) eqn:Hs; [by rewrite Hs|].
  by destruct (controller s).
Qed.

Lemma ensureFallback_frame (s : Session) :
  sockets (ensureFallback s) = sockets s ∧
  timers (ensureFallback s) = timers s ∧
  socket (ensureFallback s) = socket s ∧
  reconnectTimer (ensureFallback s) = reconnectTimer s ∧
  stopped (ensureFallback s) = stopped s ∧
  delivered (ensureFallback s) = delivered s.
Proof.
  unfold ensureFallback. destruct (fallbackTimer s); [done|].
  apply pollState_frame.
Qed.

Lemma stopFallback_frame (s : Session) :
  sockets (stopFallback s) = sockets s ∧
  socket (stopFallback s) = socket s ∧
  reconnectTimer (stopFallback s) = reconnectTimer s ∧
  stopped (stopFallback s) = stopped s ∧
  delivered (stopFallback s) = delivered s ∧
  controller (stopFallback s) = None ∧
  ∀ id cb, timers (stopFallback s) !! id = Some cb → timers s !! id = Some cb.
Proof.
  unfold stopFallback.
  destruct (fallbackTimer s) as [ft|]; simpl;
    destruct (controller s) as [c|] eqn:Hc; simpl; repeat split; try done;
    intros id cb; rewrite lookup_delete; by case_decide.
Qed.

Lemma scheduleReconnect_frame (s : Session) :
  sockets (scheduleReconnect s) = sockets s ∧
  socket (scheduleReconnect s) = socket s ∧
  requests (scheduleReconnect s) = requests s ∧
  controller (scheduleReconnect s) = controller s ∧
  stopped (scheduleReconnect s) = stopped s ∧
  delivered (scheduleReconnect s) = delivered s.
Proof.
  unfold scheduleReconnect.
  by destruct (bool_decide (reconnectTimer s ≠ None) || stopped s).
Qed.

Lemma pollState_resume_frame (outcome : Outcome) (s : Session) :
  sockets (pollState_resume outcome s) = sockets s ∧
  socket (pollState_resume outcome s) = socket s ∧
  requests (pollState_resume outcome s) = requests s ∧
  controller (pollState_resume outcome s) = controller s ∧
  reconnectTimer (pollState_resume outcome s) = reconnectTimer s ∧
  stopped (pollState_resume outcome s) = stopped s ∧
  ∀ id, timers (pollState_resume outcome s) !! id = Some cb_reconnect →
        timers s !! id = Some cb_reconnect.
Proof.
  unfold pollState_resume.
  destruct outcome as [state|]; [destruct (truthy state)|]; simpl;
    repeat split; try done;
    intros id; rewrite lookup_insert; by case_decide.
Qed.

(** ** Requests *)

Lemma abort_in_flight (c : nat) (s : Session) (id : nat) :
  in_flight (abort c s) id → id ≠ c ∧ in_flight s id.
Proof.
  unfold in_flight, abort. simpl. rewrite lookup_alter.
  case_decide as Hid; [|naive_solver].
  subst. by destruct (requests s !! id).
Qed.

Lemma abort_previous_no_flight (s : Session) (id : nat) :
  controlled s → ¬ in_flight (abort_previous s) id.
Proof.
  intros Hc Hin. unfold abort_previous in Hin.
  destruct (controller s) as [c|] eqn:Hctl.
  - apply abort_in_flight in Hin as [Hne Hin]. apply Hc in Hin. congruence.
  - apply Hc in Hin. congruence.
Qed.

Lemma pollState_controlled (s : Session) :
  controlled s → controlled (pollState s).
Proof.
  intros Hc. unfold pollState. destruct (stopped s); [done|].
  intros id Hin. unfold in_flight, issue_request in Hin. simpl in *.
  rewrite lookup_insert in Hin. case_decide as Hid; [by f_equal|].
  by destruct (abort_previous_no_flight s id Hc).
Qed.

Lemma stopFallback_no_flight (s : Session) (id : nat) :
  controlled s → ¬ in_flight (stopFallback s) id.
Proof.
  intros Hc Hin. unfold stopFallback in Hin.
  destruct (fallbackTimer s) as [ft|]; simpl in Hin;
    destruct (controller s) as [c|] eqn:Hctl; simpl in Hin.
  - apply abort_in_flight in Hin as [Hne Hin]. apply Hc in Hin. congruence.
  - apply Hc in Hin. congruence.
  - apply abort_in_flight in Hin as [Hne Hin]. apply Hc in Hin. congruence.
  - apply Hc in Hin. congruence.
Qed.

Lemma ensureFallback_controlled (s : Session) :
  controlled s → controlled (ensureFallback s).
Proof.
  unfold ensureFallback. destruct (fallbackTimer s); [done|].
  apply pollState_controlled.
Qed.

Lemma controlled_same (s s' : Session) :
  requests s' = requests s → controller s' = controller s →
  controlled s → controlled s'.
Proof. unfold controlled, in_flight. intros -> ->. done. Qed.

Lemma controlled_settled (s : Session) (req : nat) :
  controlled s → controlled (set_requests (delete req (requests s)) s).
Proof.
  intros Hc id Hin. unfold in_flight in Hin. simpl in *.
  rewrite lookup_delete in Hin. case_decide; [done|]. by apply Hc.
Qed.

(** ** Sockets and the reconnect timeout *)

Lemma scheduleReconnect_cases (s : Session) :
  scheduleReconnect s = s ∨
  (reconnectTimer s = None ∧ stopped s = false ∧
   scheduleReconnect s
   = set_reconnectTimer (Some (next_id s))
       (set_timers (<[next_id s := cb_reconnect]> (timers s)) (fresh s))).
Proof.
  unfold scheduleReconnect. case_bool_decide as Hrt; simpl; [by left|].
  destruct (stopped s); [by left|]. right.
  destruct (reconnectTimer s); [by destruct Hrt|done].
Qed.

Lemma scheduleReconnect_pending (s : Session) :
  all_closed s → reconnect_pending s →
  reconnect_pending (scheduleReconnect s).
Proof.
  intros Hclosed Hpend.
  destruct (scheduleReconnect_cases s) as [->|(Hrt & _ & ->)]; [done|].
  intros id Hid. simpl in *. split; [|done].
  rewrite lookup_insert in Hid. case_decide as Hnew; [by subst|].
  destruct (Hpend id Hid) as [Hrt' _]. congruence.
Qed.

Lemma connectSocket_invariant (throws : bool) (s : Session) :
  invariant s → all_closed s → no_reconnect_pending s →
  invariant (connectSocket throws s).
Proof.
  intros [Hc Hs Hr] Hclosed Hnone. unfold connectSocket.
  destruct (stopped s); [done|]. destruct throws.
  - set (s1 := ensureFallback (log unable_to_open s)).
    destruct (ensureFallback_frame (log unable_to_open s))
      as (Hso & Hti & Hsk & Hrt & _). fold s1 in Hso, Hti, Hsk, Hrt.
    destruct (scheduleReconnect_frame s1) as (Hso' & Hsk' & Hrq' & Hct' & _).
    split.
    + eapply controlled_same; [done..|].
      by apply ensureFallback_controlled.
    + intros id st. rewrite Hso', Hsk', Hso, Hsk. apply Hs.
    + apply scheduleReconnect_pending.
      * intros sid st. rewrite Hso. apply Hclosed.
      * intros id. rewrite Hti. simpl. intros Hid. by destruct (Hnone id).
  - split.
    + done.
    + intros id st Hid Hst. simpl in *. rewrite lookup_insert in Hid.
      case_decide as Hnew; [by subst|].
      by rewrite (Hclosed _ _ Hid) in Hst.
    + intros id Hid. simpl in *. by destruct (Hnone id).
Qed.

Lemma onmessage_frame (data : string) (s : Session) :
  socket (onmessage JSON_parse data s) = socket s ∧
  timers (onmessage JSON_parse data s) = timers s ∧
  requests (onmessage JSON_parse data s) = requests s ∧
  controller (onmessage JSON_parse data s) = controller s ∧
  reconnectTimer (onmessage JSON_parse data s) = reconnectTimer s.
Proof.
  unfold onmessage. destruct (JSON_parse data) as [payload|]; [|done].
  by destruct (truthy (state_of payload)).
Qed.

Lemma invariant_same (s s' : Session) :
  requests s' = requests s → controller s' = controller s →
  sockets s' = sockets s → socket s' = socket s →
  timers s' = timers s → reconnectTimer s' = reconnectTimer s →
  invariant s → invariant s'.
Proof.
  intros Hrq Hct Hso Hsk Hti Hrt [Hc Hs Hr]. split.
  - by apply (controlled_same s).
  - unfold current_socket. rewrite Hso, Hsk. apply Hs.
  - unfold reconnect_pending. rewrite Hso, Hti, Hrt. apply Hr.
Qed.

Lemma initial_invariant : invariant initial.
Proof.
  split.
  - intros id Hid. unfold in_flight in Hid. simpl in Hid. by rewrite lookup_empty in Hid.
  - intros id st Hid. simpl in Hid. by rewrite lookup_empty in Hid.
  - intros id Hid. simpl in Hid. by rewrite lookup_empty in Hid.
Qed.

Lemma connectStateStream_invariant (throws : bool) :
  invariant (connectStateStream throws).
Proof.
  apply connectSocket_invariant; [apply initial_invariant|..].
  - intros sid st Hid. simpl in Hid. by rewrite lookup_empty in Hid.
  - intros id. simpl. by rewrite lookup_empty.
Qed.

Lemma cleanup_frame (s : Session) :
  requests (cleanup s) = requests (stopFallback (set_stopped true s)) ∧
  controller (cleanup s) = None ∧
  socket (cleanup s) = socket s ∧
  stopped (cleanup s) = true ∧
  delivered (cleanup s) = delivered s.
Proof.
  unfold cleanup.
  destruct (stopFallback_frame (set_stopped true s))
    as (Hso & Hsk & Hrt & Hst & Hd & Hct & _).
  set (s1 := stopFallback (set_stopped true s)) in *.
  destruct (reconnectTimer s1) as [rt|]; simpl;
    rewrite Hsk; simpl; destruct (socket s) as [sid|] eqn:Hcur; simpl in *;
    repeat split; congruence.
Qed.

Lemma cleanup_sockets (s : Session) (id : nat) :
  sockets (cleanup s) !! id =
  if decide (socket s = Some id)
  then (λ st, match st with CONNECTING | OPEN => CLOSING | _ => st end)
         <$> sockets s !! id
  else sockets s !! id.
Proof.
  unfold cleanup.
  destruct (stopFallback_frame (set_stopped true s))
    as (Hso & Hsk & _).
  set (s1 := stopFallback (set_stopped true s)) in *. simpl in Hso, Hsk.
  assert (∀ s2 : Session, sockets s2 = sockets s → socket s2 = socket s →
            sockets match socket s2 with
                    | Some sid => close sid s2
                    | None => s2
                    end !! id
            = if decide (socket s = Some id)
              then (λ st, match st with CONNECTING | OPEN => CLOSING | _ => st end)
                     <$> sockets s !! id
              else sockets s !! id) as Hclose.
  { intros s2 Hso2 Hsk2. rewrite Hsk2.
    destruct (socket s) as [sid|]; simpl; rewrite Hso2.
    - rewrite lookup_alter. case_decide; case_decide; congruence.
    - done. }
  destruct (reconnectTimer s1) as [rt|]; by apply Hclose.
Qed.

Lemma cleanup_timers (s : Session) (id : nat) (cb : TimerCallback) :
  timers (cleanup s) !! id = Some cb →
  timers s !! id = Some cb ∧ reconnectTimer s ≠ Some id.
Proof.
  unfold cleanup.
  destruct (stopFallback_frame (set_stopped true s))
    as (_ & _ & Hrt & _ & _ & _ & Hti).
  set (s1 := stopFallback (set_stopped true s)) in *. simpl in Hrt, Hti.
  rewrite Hrt. destruct (reconnectTimer s) as [rt|]; simpl;
    destruct (socket _) as [sid|]; simpl; intros Hid.
  - rewrite lookup_delete in Hid. case_decide; [done|].
    split; [by apply Hti|congruence].
  - rewrite lookup_delete in Hid. case_decide; [done|].
    split; [by apply Hti|congruence].
  - split; [by apply Hti|done].
  - split; [by apply Hti|done].
Qed.

Lemma cleanup_invariant (s : Session) : invariant s → invariant (cleanup s).
Proof.
  intros [Hc Hs Hr].
  destruct (cleanup_frame s) as (Hrq & Hct & Hsk & _). split.
  - intros id Hid. unfold in_flight in Hid. rewrite Hrq in Hid.
    exfalso. eapply (stopFallback_no_flight (set_stopped true s)); [|exact Hid].
    by apply (controlled_same s).
  - intros id st Hid Hst. rewrite Hsk. rewrite cleanup_sockets in Hid.
    case_decide as Hcur; [done|]. by apply (Hs id st).
  - intros id Hid. apply cleanup_timers in Hid as [Hid Hne].
    by destruct (Hr id Hid).
Qed.

Lemma onopen_invariant (s : Session) (sock : nat) :
  invariant s → sockets s !! sock = Some CONNECTING →
  invariant (onopen (set_sockets (<[sock := OPEN]> (sockets s)) s)).
Proof.
  intros [Hc Hs Hr] Hsock. unfold onopen.
  set (s1 := set_sockets (<[sock := OPEN]> (sockets s)) s).
  destruct (stopFallback_frame s1) as (Hso & Hsk & Hrt & _ & _ & Hct & Hti).
  split.
  - intros id Hid. exfalso.
    eapply (stopFallback_no_flight s1); [|exact Hid]. by apply (controlled_same s).
  - intros id st. rewrite Hso, Hsk. simpl. rewrite lookup_insert.
    case_decide as Hid; [|apply Hs]. subst id. intros _ _.
    by apply (Hs sock CONNECTING).
  - intros id Hid. apply Hti in Hid. simpl in Hid.
    destruct (Hr id Hid) as [_ Hclosed]. by specialize (Hclosed _ _ Hsock).
Qed.

Lemma onclose_invariant (s : Session) (sock : nat) (st0 : ReadyState) :
  invariant s → sockets s !! sock = Some st0 → st0 ≠ CLOSED →
  invariant (onclose (set_sockets (<[sock := CLOSED]> (sockets s)) s)).
Proof.
  intros [Hc Hs Hr] Hsock Hst0. unfold onclose.
  set (s1 := set_sockets (<[sock := CLOSED]> (sockets s)) s).
  destruct (ensureFallback_frame s1) as (Hso & Hti & Hsk & Hrt & _).
  destruct (scheduleReconnect_frame (ensureFallback s1))
    as (Hso' & Hsk' & Hrq' & Hct' & _).
  assert (all_closed s1) as Hclosed.
  { intros sid st. simpl. rewrite lookup_insert.
    case_decide as Hid; [congruence|]. intros Hsid.
    destruct (decide (st = CLOSED)) as [|Hst]; [done|].
    pose proof (Hs _ _ Hsid Hst). pose proof (Hs _ _ Hsock Hst0). congruence. }
  split.
  - eapply controlled_same; [done..|].
    apply ensureFallback_controlled. by apply (controlled_same s).
  - intros id st. rewrite Hso', Hsk', Hso, Hsk. simpl. rewrite lookup_insert.
    case_decide as Hid; [congruence|]. apply Hs.
  - apply scheduleReconnect_pending.
    + intros sid st. rewrite Hso. apply Hclosed.
    + intros id. rewrite Hti, Hrt, Hso. simpl. intros Hid.
      destruct (Hr id Hid) as [Hrt' _]. split; [done|]. apply Hclosed.
Qed.

Lemma reconnect_invariant (throws : bool) (s : Session) (id : nat) :
  invariant s → timers s !! id = Some cb_reconnect →
  invariant (reconnect throws (set_timers (delete id (timers s)) s)).
Proof.
  intros [Hc Hs Hr] Hid. unfold reconnect.
  destruct (Hr id Hid) as [Hrt Hclosed].
  apply connectSocket_invariant.
  - split; [done|done|].
    intros id' Hid'. simpl in Hid'. rewrite lookup_delete in Hid'.
    case_decide as Hne; [done|]. destruct (Hr id' Hid') as [Hrt' _]. congruence.
  - done.
  - intros id'. simpl. rewrite lookup_delete. case_decide as Hne; [done|].
    intros Hid'. destruct (Hr id' Hid') as [Hrt' _]. congruence.
Qed.

Lemma step_invariant (s s' : Session) (e : Event) :
  invariant s → step JSON_parse s e = Some s' → invariant s'.
Proof.
  intros Hinv Hstep. destruct e as [sock|sock data|sock|sock|id throws|req outcome|];
    simpl in Hstep.
  - destruct (sockets s !! sock) as [[]|] eqn:Hsock; try done.
    injection Hstep as <-. by apply onopen_invariant.
  - destruct (sockets s !! sock) as [[]|] eqn:Hsock; try done.
    injection Hstep as <-.
    destruct (onmessage_frame data s) as (? & ? & ? & ? & ?).
    destruct (onmessage_spec data s) as (_ & _ & ? & _).
    by apply (invariant_same s).
  - assert (invariant (onerror s)) as Hgoal.
    { unfold onerror.
      destruct (ensureFallback_frame (log stream_error s))
        as (Hso & Hti & Hsk & Hrt & _).
      destruct Hinv as [Hc Hs Hr]. split.
      - apply ensureFallback_controlled. by apply (controlled_same s).
      - unfold current_socket. by rewrite Hso, Hsk.
      - unfold reconnect_pending. by rewrite Hso, Hti, Hrt. }
    destruct (sockets s !! sock) as [[]|]; try done; by injection Hstep as <-.
  - destruct (sockets s !! sock) as [st0|] eqn:Hsock; [|done].
    assert (st0 ≠ CLOSED ∧
            s' = onclose (set_sockets (<[sock := CLOSED]> (sockets s)) s))
      as [Hst0 ->] by (destruct st0; try done; by injection Hstep as <-).
    by apply (onclose_invariant s sock st0).
  - destruct (timers s !! id) as [cb|] eqn:Hid; [|done].
    injection Hstep as <-. destruct cb.
    + set (s1 := set_timers (delete id (timers s)) s).
      destruct (pollState_frame s1) as (Hso & Hti & Hsk & Hrt & _).
      destruct Hinv as [Hc Hs Hr]. split.
      * apply pollState_controlled. by apply (controlled_same s).
      * unfold current_socket. rewrite Hso, Hsk. apply Hs.
      * intros id'. rewrite Hso, Hti, Hrt. simpl. rewrite lookup_delete.
        case_decide; [done|]. apply Hr.
    + by apply reconnect_invariant.
  - destruct (requests s !! req) as [aborted|] eqn:Hreq; [|done].
    destruct (aborted && is_resolved outcome); [done|].
    injection Hstep as <-.
    set (s1 := set_requests (delete req (requests s)) s).
    destruct (pollState_resume_frame outcome s1)
      as (Hso & Hsk & Hrq & Hct & Hrt & _ & Hti).
    destruct Hinv as [Hc Hs Hr]. split.
    + eapply controlled_same; [done..|]. by apply controlled_settled.
    + unfold current_socket. rewrite Hso, Hsk. apply Hs.
    + intros id' Hid'. apply Hti in Hid'. rewrite Hso, Hrt. by apply Hr.
  - injection Hstep as <-. by apply cleanup_invariant.
Qed.

Lemma run_invariant (events : list Event) (s s' : Session) :
  invariant s → run JSON_parse s events = Some s' → invariant s'.
Proof.
  revert s. induction events as [|e events IH]; intros s Hinv Hrun;
    simpl in Hrun.
  - by injection Hrun as <-.
  - destruct (step JSON_parse s e) as [s1|] eqn:Hstep; [|done].
    eapply IH; [|exact Hrun]. by eapply step_invariant.
Qed.

Lemma reachable_invariant (s : Session) : reachable JSON_parse s → invariant s.
Proof.
  intros (throws & events & Hrun).
  eapply run_invariant; [|exact Hrun]. apply connectStateStream_invariant.
Qed.

(** ** After the handle was used *)

Lemma cleanup_quiet (s : Session) : invariant s → quiet (cleanup s).
Proof.
  intros [Hc Hs Hr]. destruct (cleanup_frame s) as (Hrq & _ & _ & Hst & _).
  split; [done|]. split.
  - intros id [|] Hid; [done|]. rewrite Hrq in Hid. exfalso.
    eapply (stopFallback_no_flight (set_stopped true s)); [|exact Hid].
    by apply (controlled_same s).
  - intros id st. rewrite cleanup_sockets. case_decide as Hcur.
    + destruct (sockets s !! id) as [[]|]; simpl; naive_solver.
    + intros Hid. right. destruct (decide (st = CLOSED)) as [|Hst']; [done|].
      by destruct Hcur, (Hs id st Hid Hst').
Qed.

Lemma stopped_idle (s : Session) :
  stopped s = true →
  pollState s = s ∧ ensureFallback s = s ∧ scheduleReconnect s = s ∧
  ∀ throws, connectSocket throws s = s.
Proof.
  intros Hst. unfold ensureFallback, pollState, scheduleReconnect, connectSocket.
  rewrite Hst, orb_true_r. by destruct (fallbackTimer s).
Qed.

Lemma quiet_same (s s' : Session) :
  stopped s' = stopped s → requests s' = requests s → sockets s' = sockets s →
  quiet s → quiet s'.
Proof. unfold quiet. intros -> -> ->. done. Qed.

Lemma step_quiet (s s' : Session) (e : Event) :
  invariant s → quiet s → step JSON_parse s e = Some s' →
  quiet s' ∧ delivered s' = delivered s.
Proof.
  intros Hinv (Hst & Hrq & Hso) Hstep.
  destruct e as [sock|sock data|sock|sock|id throws|req outcome|];
    simpl in Hstep.
  - destruct (sockets s !! sock) as [st|] eqn:Hsock; [|done].
    destruct (Hso _ _ Hsock) as [-> | ->]; done.
  - destruct (sockets s !! sock) as [st|] eqn:Hsock; [|done].
    destruct (Hso _ _ Hsock) as [-> | ->]; done.
  - assert (onerror s = log stream_error s) as Herr.
    { unfold onerror. by apply (stopped_idle (log stream_error s)). }
    rewrite Herr in Hstep.
    destruct (sockets s !! sock) as [[]|]; try done; by injection Hstep as <-.
  - destruct (sockets s !! sock) as [st0|] eqn:Hsock; [|done].
    set (s1 := set_sockets (<[sock := CLOSED]> (sockets s)) s) in *.
    assert (onclose s1 = s1) as Hclose.
    { unfold onclose. destruct (stopped_idle s1 Hst) as (_ & -> & -> & _). done. }
    rewrite Hclose in Hstep.
    assert (s' = s1) as -> by (destruct st0; try done; by injection Hstep as <-).
    split; [|done]. split; [done|]. split; [done|].
    intros id st. simpl. rewrite lookup_insert. case_decide; [naive_solver|].
    apply Hso.
  - destruct (timers s !! id) as [cb|] eqn:Hid; [|done].
    injection Hstep as <-.
    set (s1 := set_timers (delete id (timers s)) s).
    destruct cb.
    + destruct (stopped_idle s1 Hst) as (-> & _). done.
    + unfold reconnect.
      destruct (stopped_idle (set_reconnectTimer None s1) Hst) as (_ & _ & _ & ->).
      done.
  - destruct (requests s !! req) as [aborted|] eqn:Hreq; [|done].
    rewrite (Hrq _ _ Hreq) in Hstep. destruct outcome as [state|]; [done|].
    injection Hstep as <-. split; [|done]. split; [done|]. split; [|done].
    intros id aborted'. simpl. rewrite lookup_delete. case_decide; [done|].
    apply Hrq.
  - injection Hstep as <-. split; [by apply cleanup_quiet|].
    apply cleanup_frame.
Qed.

Lemma run_quiet (events : list Event) (s s' : Session) :
  invariant s → quiet s → run JSON_parse s events = Some s' →
  delivered s' = delivered s.
Proof.
  revert s. induction events as [|e events IH]; intros s Hinv Hq Hrun;
    simpl in Hrun.
  - by injection Hrun as <-.
  - destruct (step JSON_parse s e) as [s1|] eqn:Hstep; [|done].
    destruct (step_quiet s s1 e Hinv Hq Hstep) as [Hq1 <-].
    eapply IH; [|exact Hq1|exact Hrun]. by eapply step_invariant.
Qed.

(** Once the handle has been used the listener is not called again,
    whatever happens afterwards. *)
Lemma no_delivery_after_detach (s s' : Session) (events : list Event) :
  reachable JSON_parse s → run JSON_parse (cleanup s) events = Some s' →
  delivered s' = delivered s.
Proof.
  intros Hreach Hrun. apply reachable_invariant in Hreach.
  rewrite (run_quiet events (cleanup s) s'); [apply cleanup_frame| | |done].
  - by apply cleanup_invariant.
  - by apply cleanup_quiet.
Qed.

(** ** Properties of the session *)

(** C9: on an open socket every sequence of messages is processed to the
    end; each message that fails to parse adds one diagnostic and no call of
    the listener, and the others are delivered in order.  In particular a
    malformed message followed by a valid one gives exactly one call, with
    the valid payload. *)
Theorem malformed_message_skipped (s : Session) (sock : nat)
    (msgs : list string) (bad good : string) (payload : json) :
  sockets s !! sock = Some OPEN →
  JSON_parse bad = None →
  JSON_parse good = Some payload → truthy (state_of payload) = true →
  (∃ s', run JSON_parse s (SocketMessage sock <$> msgs) = Some s' ∧
         delivered s' = delivered s ++ omap (accepted JSON_parse) msgs ∧
         console s' = console s ++ omap (complaint JSON_parse) msgs ∧
         sockets s' !! sock = Some OPEN) ∧
  accepted JSON_parse bad = None ∧ complaint JSON_parse bad = Some failed_to_parse ∧
  ∃ s2, run JSON_parse s [SocketMessage sock bad; SocketMessage sock good] = Some s2 ∧
        delivered s2 = delivered s ++ [state_of payload] ∧
        console s2 = console s ++ [failed_to_parse] ∧
        sockets s2 !! sock = Some OPEN.
Proof.
  intros Hopen Hbad Hgood Htruthy.
  assert (accepted JSON_parse bad = None) as Hab by (unfold accepted; by rewrite Hbad).
  assert (complaint JSON_parse bad = Some failed_to_parse) as Hcb
    by (unfold complaint; by rewrite Hbad).
  assert (accepted JSON_parse good = Some (state_of payload)) as Hag
    by (unfold accepted; by rewrite Hgood, Htruthy).
  assert (complaint JSON_parse good = None) as Hcg
    by (unfold complaint; by rewrite Hgood).
  split; [|split; [done|split; [done|]]].
  - destruct (run_messages s sock msgs Hopen) as (s' & Hrun & Hd & Hc & Hs & _).
    exists s'. by rewrite Hs.
  - destruct (run_messages s sock [bad; good] Hopen)
      as (s2 & Hrun & Hd & Hc & Hs & _).
    exists s2. split; [exact Hrun|]. rewrite Hd, Hc, Hs. simpl.
    by rewrite Hab, Hcb, Hag, Hcg.
Qed.

(** C8: in every state of a session at most one request is in flight, and
    it is the one [controller] refers to; when a poll cycle starts, the
    signal of the previous request has been aborted - nothing is in flight -
    at the moment the new request is issued. *)
Theorem one_request_in_flight (s : Session) :
  reachable JSON_parse s →
  (∀ id1 id2, in_flight s id1 → in_flight s id2 → id1 = id2) ∧
  (∀ id, in_flight s id → controller s = Some id) ∧
  (stopped s = false →
   pollState s = issue_request (abort_previous s) ∧
   (∀ id, ¬ in_flight (abort_previous s) id) ∧
   ∀ id, in_flight (pollState s) id ↔ id = next_id s).
Proof.
  intros Hreach. apply reachable_invariant in Hreach as [Hc _ _].
  split; [|split; [exact Hc|]].
  - intros id1 id2 H1 H2. apply Hc in H1, H2. congruence.
  - intros Hst. unfold pollState. rewrite Hst. split; [done|].
    split; [intros id; by apply abort_previous_no_flight|].
    intros id. unfold in_flight, issue_request. simpl. rewrite lookup_insert.
    assert (next_id (abort_previous s) = next_id s) as ->
      by (unfold abort_previous; by destruct (controller s)).
    case_decide as Hid; [done|]. split; [|done].
    intros Hin. by destruct (abort_previous_no_flight s id Hc).
Qed.

End session.

(** ** Sample runs *)

Lemma malformed_message_skipped_witness :
  ∃ s2, run sample_parse streaming_session
          [SocketMessage 0%nat "{oops"; SocketMessage 0%nat text_wrapped]
        = Some s2 ∧
        delivered s2 = [snapshot 8] ∧ console s2 = [failed_to_parse] ∧
        sockets s2 !! 0%nat = Some OPEN.
Proof.
  exact (proj2 (proj2 (proj2
    (malformed_message_skipped sample_parse streaming_session 0%nat []
       "{oops" text_wrapped (JObj [("state", snapshot 8)])
       eq_refl eq_refl eq_refl eq_refl)))).
Defined.

Example failed_connection_requests :
  requests failed_connection = {[ 1%nat := true; 2%nat := false ]}.
Proof. vm_compute. reflexivity. Qed.

Lemma one_request_in_flight_witness :
  reachable sample_parse failed_connection ∧
  (∀ id, in_flight failed_connection id →
         controller failed_connection = Some id) ∧
  ∀ id, ¬ in_flight (abort_previous failed_connection) id.
Proof.
  assert (reachable sample_parse failed_connection) as Hreach.
  { exists false, [SocketError 0%nat; SocketClosed 0%nat]. vm_compute. reflexivity. }
  split; [exact Hreach|].
  destruct (one_request_in_flight sample_parse failed_connection Hreach)
    as (_ & Hctl & Hpoll).
  split; [exact Hctl|]. apply Hpoll. reflexivity.
Defined.

(** C2 at this run: when the handle returns, no timeout is pending and the
    outstanding request is aborted; when the aborted request is rejected,
    the rest of [pollState] runs and schedules a timeout, in a session that
    was detached.  The listener is not called. *)
Theorem timeout_scheduled_after_detach :
  run sample_parse (connectStateStream false) [SocketClosed 0%nat; Detach]
  = Some detached_while_polling ∧
  stopped detached_while_polling = true ∧
  timers detached_while_polling = ∅ ∧
  requests detached_while_polling = {[ 1%nat := true ]} ∧
  ∃ s, step sample_parse detached_while_polling (FetchSettled 1%nat Rejected)
       = Some s ∧
       stopped s = true ∧
       timers s = {[ 3%nat := cb_pollState ]} ∧
       fallbackTimer s = Some 3%nat ∧
       delivered s = [].
Proof.
  split; [vm_compute; reflexivity|].
  split; [vm_compute; reflexivity|].
  split; [vm_compute; reflexivity|].
  split; [vm_compute; reflexivity|].
  exists (default initial
            (step sample_parse detached_while_polling
               (FetchSettled 1%nat Rejected))).
  repeat split; vm_compute; reflexivity.
Qed.

(** C3 at this run: the session reaches a state that is streaming and
    polling at once, and from there the open socket and the poll loop both
    call the listener. *)
Theorem streaming_and_polling_together :
  ∃ s, run sample_parse (connectStateStream false) reconnected_while_polling
       = Some s ∧
       streaming s ∧ polling s ∧
       ∃ s', run sample_parse s then_both_deliver = Some s' ∧
             delivered s'
             = delivered s ++ [snapshot 7; snapshot 9; snapshot 8] ∧
             streaming s' ∧ polling s'.
Proof.
  set (s := default initial
              (run sample_parse (connectStateStream false)
                 reconnected_while_polling)).
  set (s' := default initial (run sample_parse s then_both_deliver)).
  exists s. split; [vm_compute; reflexivity|].
  split; [exists 4%nat; vm_compute; reflexivity|].
  split.
  { split; [vm_compute; reflexivity|].
    left. exists 6%nat. vm_compute. reflexivity. }
  exists s'. split; [vm_compute; reflexivity|].
  split; [vm_compute; reflexivity|].
  split; [exists 4%nat; vm_compute; reflexivity|].
  split; [vm_compute; reflexivity|].
  left. exists 8%nat. vm_compute. reflexivity.
Qed.

End StreamTheory.

(* ===================================================================== *)
(** * More about the TimeSeriesMerger *)
(* ===================================================================== *)

Module MergerExtras.

Import TimeSeriesMerger MergerViews MergerTheory.

(** Two rows of one output with the same tick are the same row. *)
Lemma mergeSeries_row_unique series metric row1 row2 :
  row1 ∈ mergeSeries series metric → row2 ∈ mergeSeries series metric →
  row_t row1 = row_t row2 → row1 = row2.
Proof.
  intros H1 H2 Heq. apply mergeSeries_elem in H1, H2. rewrite <- Heq in H2.
  apply accumulate_lookup in H1, H2. congruence.
Qed.

(** X1: the output is empty exactly when no run has any record. *)
Theorem mergeSeries_empty_iff series metric :
  mergeSeries series metric = [] ↔
  ∀ r records, (r, records) ∈ series → records = [].
Proof.
  split.
  - intros Hnil r records Hin. destruct records as [|record records]; [done|].
    assert (t record ∈ row_t <$> mergeSeries series metric) as Hk.
    { apply mergeSeries_times. exists r, (record :: records), record.
      split; [done|]. split; [by left|done]. }
    rewrite Hnil in Hk. by apply elem_of_nil in Hk.
  - intros Hall. destruct (mergeSeries series metric) as [|row rows] eqn:Hout;
      [done|].
    assert (row_t row ∈ row_t <$> mergeSeries series metric) as Hk.
    { rewrite Hout. csimpl. by left. }
    apply mergeSeries_times in Hk as (r & records & record & Hs & Hrec & _).
    rewrite (Hall _ _ Hs) in Hrec. by apply elem_of_nil in Hrec.
Qed.

(** X2: the column of a run in the row of a tick holds the value of the
    last record the run has at that tick, with null and undefined replaced
    by 0; a number is copied unchanged. *)
Theorem mergeSeries_last_record_decides series metric r pre record post row :
  wf_series series →
  (r, (pre ++ record :: post)%list) ∈ series →
  (∀ record', record' ∈ post → t record' ≠ t record) →
  row ∈ mergeSeries series metric → row_t row = t record →
  row !! key r metric = Some (coalesce0 (field record metric)) ∧
  ∀ v, field record metric = Some v → row !! key r metric = Some v.
Proof.
  intros Hwf Hin Hpost Hrow Ht.
  destruct (last_sample_wins series metric r pre record post Hwf Hin Hpost)
    as (row' & Hrow' & Ht' & Hkey).
  assert (row = row') as -> by (eapply mergeSeries_row_unique; [done..|congruence]).
  split; [done|]. intros v Hv. by rewrite Hkey, Hv.
Qed.

Lemma mergeSeries_last_record_decides_witness :
  ({[ "t" := 1; "runA-vehicle_count" := 7; "runB-vehicle_count" := 3 ]}
     : bucket) !! key "runA" "vehicle_count" = Some 7.
Proof.
  refine (proj1 (mergeSeries_last_record_decides example_series "vehicle_count"
                   "runA" [rec_vc 0 5] (rec_vc 1 7) [] _ _ _ _ _ _)).
  - unfold wf_series. vm_compute. repeat constructor; set_solver.
  - by left.
  - intros record' Hin. by apply elem_of_nil in Hin.
  - rewrite mergeSeries_example. right. by left.
  - vm_compute. reflexivity.
Defined.

(** X3: the ticks of the rows do not depend on the metric: the charts of
    two metrics of one series share their time axis. *)
Theorem mergeSeries_ticks_any_metric series metric1 metric2 :
  row_t <$> mergeSeries series metric1 = row_t <$> mergeSeries series metric2.
Proof.
  apply (StronglySorted_unique_strong Z.lt);
    [intros; lia|apply mergeSeries_sorted..|].
  apply NoDup_Permutation; [apply mergeSeries_times_NoDup..|].
  intros k. by rewrite !mergeSeries_times.
Qed.

(** X4: the output has as many rows as the input has distinct ticks. *)
Theorem mergeSeries_length series metric :
  length (mergeSeries series metric) = length (remove_dups (ticks_of series)).
Proof.
  rewrite <- (length_fmap row_t). apply Permutation_length.
  apply NoDup_Permutation;
    [apply mergeSeries_times_NoDup|apply NoDup_remove_dups|].
  intros k. rewrite mergeSeries_times, elem_of_remove_dups.
  unfold ticks_of. rewrite list_elem_of_fmap. split.
  - intros (r & records & record & Hs & Hrec & Ht).
    exists (r, record). split; [done|]. apply elem_of_samples. eauto.
  - intros ([r record] & Ht & Hx). apply elem_of_samples in Hx as (records & ? & ?).
    by exists r, records, record.
Qed.

Lemma stepM_fold_keys metric l k b (k0 : string) :
  foldl (stepM metric) ∅ l !! k = Some b → is_Some (b !! k0) →
  k0 = "t" ∨ ∃ r record, (r, record) ∈ l ∧ t record = k ∧ k0 = key r metric.
Proof.
  revert b. induction l as [|[r0 rec0] l IH] using rev_ind; intros b Hb Hk0.
  - simpl in Hb. by rewrite lookup_empty in Hb.
  - rewrite foldl_app in Hb. simpl in Hb. rewrite stepM_lookup in Hb.
    simpl in Hb.
    assert (∀ b', foldl (stepM metric) ∅ l !! k = Some b' →
                  is_Some (b' !! k0) →
                  k0 = "t" ∨ ∃ r record,
                    (r, record) ∈ l ++ [(r0, rec0)] ∧ t record = k ∧
                    k0 = key r metric) as IH'.
    { intros b' Hb' Hk'. destruct (IH b' Hb' Hk') as [?|(r & record & ? & ? & ?)];
        [by left|]. right. exists r, record. split; [|done].
      apply elem_of_app. by left. }
    destruct (decide (t rec0 = k)) as [Ht|Ht]; [|by apply (IH' b)].
    injection Hb as <-.
    destruct (decide (k0 = key r0 metric)) as [->|Hne].
    + right. exists r0, rec0. split; [|done]. apply elem_of_app. right.
      by apply list_elem_of_singleton.
    + rewrite lookup_insert_ne in Hk0 by done.
      destruct (foldl (stepM metric) ∅ l !! k) as [b'|]; simpl in Hk0.
      * by apply (IH' b').
      * left. destruct (decide (k0 = "t")) as [|Hnt]; [done|].
        rewrite lookup_singleton_ne in Hk0 by done. by destruct Hk0.
Qed.

(** X5: a row holds nothing but its tick and columns of runs that have a
    record at that tick: every key of a row is ["t"] or the column of such
    a run. *)
Theorem mergeSeries_row_keys series metric row (k0 : string) :
  row ∈ mergeSeries series metric → is_Some (row !! k0) →
  k0 = "t" ∨
  ∃ r records record,
    (r, records) ∈ series ∧ record ∈ records ∧ t record = row_t row ∧
    k0 = key r metric.
Proof.
  intros Hrow Hk0. apply mergeSeries_elem, accumulate_lookup in Hrow.
  rewrite accumulate_samples in Hrow.
  destruct (stepM_fold_keys metric _ _ _ k0 Hrow Hk0)
    as [?|(r & record & Hx & Ht & ->)]; [by left|]. right.
  apply elem_of_samples in Hx as (records & ? & ?). by exists r, records, record.
Qed.

Lemma mergeSeries_row_keys_witness :
  "runA-vehicle_count" = "t" ∨
  ∃ r records record,
    (r, records) ∈ example_series ∧ record ∈ records ∧
    t record = row_t {[ "t" := 0; "runA-vehicle_count" := 5 ]} ∧
    "runA-vehicle_count" = key r "vehicle_count".
Proof.
  apply (mergeSeries_row_keys example_series "vehicle_count"
           {[ "t" := 0; "runA-vehicle_count" := 5 ]} "runA-vehicle_count").
  - rewrite mergeSeries_example. by left.
  - vm_compute. eauto.
Defined.

(** *** One run with increasing ticks *)

Lemma Map_get_absent (m : TimeMap) (k : Z) : k ∉ m.*1 → Map_get m k = None.
Proof.
  intros Hk. rewrite Map_get_to_map. unfold to_map.
  by apply not_elem_of_list_to_map_1.
Qed.

Lemma Map_set_absent (m : TimeMap) (k : Z) (v : bucket) :
  k ∉ m.*1 → Map_set m k v = m ++ [(k, v)].
Proof.
  induction m as [|[k' v'] m IH]; csimpl; intros Hk; [done|].
  apply not_elem_of_cons in Hk as [Hne Hk].
  destruct (decide (k' = k)); [congruence|]. by rewrite IH.
Qed.

Lemma foldl_add_record_fresh r metric (byTime : TimeMap) records :
  NoDup (t <$> records) →
  (∀ record, record ∈ records → t record ∉ byTime.*1) →
  foldl (add_record r metric) byTime records
  = byTime ++ ((λ record, (t record, row_of_record r metric record)) <$> records).
Proof.
  revert byTime. induction records as [|record records IH];
    intros byTime Hnd Hfresh; csimpl.
  - by rewrite app_nil_r.
  - apply NoDup_cons in Hnd as [Hrec Hnd].
    assert (t record ∉ byTime.*1) as Hk by (apply Hfresh; by left).
    unfold add_record at 2. rewrite Map_get_absent, Map_set_absent by done.
    simpl. rewrite IH; [by rewrite <- app_assoc|done|].
    intros record' Hin. rewrite fmap_app. csimpl.
    rewrite elem_of_app, list_elem_of_singleton. intros [Hold|Heq].
    + by apply (Hfresh record'); [right|].
    + apply Hrec. rewrite <- Heq. apply list_elem_of_fmap. eauto.
Qed.

Lemma row_of_record_t r metric record :
  row_t (row_of_record r metric record) = t record.
Proof.
  unfold row_t, row_of_record.
  rewrite lookup_insert_ne by apply key_ne_t. by rewrite lookup_singleton_eq.
Qed.

(** X6: for a single run whose ticks strictly increase, the output has one
    row per record, in the order of the records, each with the tick and the
    one column of the run. *)
Theorem mergeSeries_single_run r records metric :
  StronglySorted Z.lt (t <$> records) →
  mergeSeries [(r, records)] metric = row_of_record r metric <$> records.
Proof.
  intros Hsorted.
  assert (NoDup (t <$> records)) as Hnd.
  { clear -Hsorted. induction Hsorted as [|k ks Hks IH Hall]; constructor; [|done].
    intros Hin. rewrite Forall_forall in Hall. specialize (Hall _ Hin). lia. }
  assert (Map_values (accumulate [(r, records)] metric)
          = row_of_record r metric <$> records) as Hvalues.
  { unfold accumulate, add_run, Map_values. simpl.
    rewrite foldl_add_record_fresh; [|done|].
    - simpl. rewrite <- list_fmap_compose. done.
    - intros record _. csimpl. apply not_elem_of_nil. }
  assert (mergeSeries [(r, records)] metric
          ≡ₚ row_of_record r metric <$> records) as Hperm.
  { unfold mergeSeries. rewrite Hvalues. apply merge_sort_Permutation. }
  apply (Sorted_unique_strong row_le).
  - intros x1 x2 Hx1 Hx2 H12 H21. rewrite <- Hperm in Hx2.
    apply (mergeSeries_row_unique [(r, records)] metric); [done..|].
    unfold row_le in *. lia.
  - apply Sorted_merge_sort, _.
  - clear -Hsorted. apply StronglySorted_Sorted.
    induction records as [|record records IH]; csimpl in *; [constructor|].
    apply StronglySorted_inv in Hsorted as [Hrest Hall].
    constructor; [by apply IH|].
    apply Forall_fmap, Forall_forall. intros record' Hin. simpl.
    rewrite Forall_fmap, Forall_forall in Hall. specialize (Hall _ Hin).
    simpl in Hall. unfold row_le. rewrite !row_of_record_t. lia.
  - done.
Qed.

Lemma mergeSeries_single_run_witness :
  mergeSeries [("runA", [rec_vc 0 5; rec_vc 1 7])] "vehicle_count"
  = [ {[ "t" := 0; "runA-vehicle_count" := 5 ]};
      {[ "t" := 1; "runA-vehicle_count" := 7 ]} ].
Proof.
  rewrite (mergeSeries_single_run "runA" [rec_vc 0 5; rec_vc 1 7] "vehicle_count").
  - vm_compute. reflexivity.
  - repeat constructor.
Defined.

End MergerExtras.

(* ===================================================================== *)
(** * Properties of the metrics page and the chart *)
(* ===================================================================== *)

Module MetricsPageTheory.

Import TimeSeriesMerger MergerTheory MetricsPage.

(** ** The selection *)

Lemma includes_spec runId prev : includes runId prev = true ↔ runId ∈ prev.
Proof. unfold includes. apply bool_decide_eq_true. Qed.

Lemma toggleRun_keeps runId (prev : list string) :
  NoDup prev → (length prev <= 3)%nat →
  NoDup (toggleRun runId prev).1 ∧ (length (toggleRun runId prev).1 <= 3)%nat.
Proof.
  intros Hnd Hlen. unfold toggleRun.
  destruct (includes runId prev) eqn:Hinc; cbn [fst].
  - split; [by apply NoDup_filter|].
    etrans; [apply length_filter|done].
  - destruct (3 <=? length prev)%nat eqn:Hfull; cbn [fst]; [done|].
    apply Nat.leb_gt in Hfull. split.
    + apply NoDup_app. split; [done|]. split; [|apply NoDup_singleton].
      intros x Hx Hx'. apply list_elem_of_singleton in Hx'. subst x.
      apply includes_spec in Hx. congruence.
    + rewrite length_app. simpl. lia.
Qed.

Lemma selection_capped_aux (start clicks : list string) :
  NoDup start → (length start <= 3)%nat →
  NoDup (toggles start clicks) ∧ (length (toggles start clicks) <= 3)%nat.
Proof.
  unfold toggles. revert start.
  induction clicks as [|runId clicks IH]; intros start Hnd Hlen; simpl; [done|].
  destruct (toggleRun_keeps runId start Hnd Hlen). by apply IH.
Qed.

(** X7: whatever is clicked, the selection never holds a run twice and
    never holds more than three runs. *)
Theorem selection_capped (start clicks : list string) :
  NoDup start → (length start <= 3)%nat →
  NoDup (toggles start clicks) ∧ (length (toggles start clicks) <= 3)%nat.
Proof. apply selection_capped_aux. Qed.

Lemma selection_capped_witness :
  NoDup (toggles [] ["a"; "b"; "c"; "d"; "a"]) ∧
  (length (toggles [] ["a"; "b"; "c"; "d"; "a"]) <= 3)%nat.
Proof.
  apply (selection_capped [] ["a"; "b"; "c"; "d"; "a"]).
  - constructor.
  - simpl. lia.
Defined.

Lemma toggleRun_cases runId (prev : list string) :
  (runId ∈ prev ∧
   toggleRun runId prev = (filter (λ id, id ≠ runId) prev, false)) ∨
  (runId ∉ prev ∧ (3 <= length prev)%nat ∧ toggleRun runId prev = (prev, false)) ∨
  (runId ∉ prev ∧ (length prev < 3)%nat ∧
   toggleRun runId prev = (prev ++ [runId], true)).
Proof.
  unfold toggleRun. destruct (includes runId prev) eqn:Hinc.
  - left. by apply includes_spec in Hinc.
  - assert (runId ∉ prev) by (rewrite <- includes_spec; congruence).
    right. destruct (3 <=? length prev)%nat eqn:Hfull.
    + left. by apply Nat.leb_le in Hfull.
    + right. by apply Nat.leb_gt in Hfull.
Qed.

(** X8: clicking a run twice gives back a selection with the same runs: a
    run that was added is removed again, a run that was removed is added
    again (at the end), and a click that was refused is refused again. *)
Theorem toggleRun_twice runId (prev : list string) :
  NoDup prev → (length prev <= 3)%nat →
  (toggleRun runId (toggleRun runId prev).1).1 ≡ₚ prev ∧
  (runId ∉ prev → (toggleRun runId (toggleRun runId prev).1).1 = prev).
Proof.
  intros Hnd Hlen.
  assert (runId ∉ prev → filter (λ id, id ≠ runId) prev = prev) as Hkeep.
  { intros Hnot. clear -Hnot. induction prev as [|x prev IH]; [done|].
    apply not_elem_of_cons in Hnot as [Hne Hnot].
    rewrite filter_cons_True by done. by rewrite IH. }
  destruct (toggleRun_cases runId prev)
    as [[Hin ->]|[(Hnot & Hfull & ->)|(Hnot & Hroom & ->)]]; cbn [fst].
  - split; [|done].
    set (rest := filter (λ id, id ≠ runId) prev).
    assert (runId ∉ rest) as Hgone.
    { unfold rest. rewrite list_elem_of_filter. naive_solver. }
    assert (length rest < length prev)%nat as Hshort.
    { unfold rest. clear -Hin.
      induction prev as [|x prev IH]; [by apply elem_of_nil in Hin|].
      destruct (decide (x = runId)) as [->|Hne].
      - rewrite filter_cons_False by naive_solver. simpl.
        pose proof (length_filter (λ id, id ≠ runId) prev). lia.
      - rewrite filter_cons_True by done. simpl.
        apply elem_of_cons in Hin as [->|Hin]; [done|].
        specialize (IH Hin). lia. }
    destruct (toggleRun_cases runId rest)
      as [[Hin' _]|[(_ & Hfull & _)|(_ & _ & ->)]]; [done|lia|].
    cbn [fst]. apply NoDup_Permutation; [|done|].
    + apply NoDup_app. split; [by apply NoDup_filter|].
      split; [|apply NoDup_singleton].
      intros x Hx Hx'. apply list_elem_of_singleton in Hx'. by subst x.
    + intros x. unfold rest.
      rewrite elem_of_app, list_elem_of_filter, list_elem_of_singleton.
      destruct (decide (x = runId)); naive_solver.
  - destruct (toggleRun_cases runId prev)
      as [[Hin _]|[(_ & _ & ->)|(_ & Hroom & _)]]; [done| |lia].
    done.
  - assert (runId ∈ prev ++ [runId]) as Hin.
    { apply elem_of_app. right. by apply list_elem_of_singleton. }
    destruct (toggleRun_cases runId (prev ++ [runId]))
      as [[_ ->]|[(Hnot' & _)|(Hnot' & _)]]; [|done..].
    cbn [fst]. rewrite filter_app, Hkeep by done.
    rewrite filter_cons_False by naive_solver.
    rewrite filter_nil, app_nil_r. done.
Qed.

Lemma toggleRun_twice_witness :
  (toggleRun "b" (toggleRun "b" ["a"; "b"; "c"]).1).1 ≡ₚ ["a"; "b"; "c"].
Proof.
  refine (proj1 (toggleRun_twice "b" ["a"; "b"; "c"] _ _)).
  - repeat constructor; set_solver.
  - simpl. lia.
Defined.

(** ** The series handed to the charts *)

Lemma selectedSeries_fold (series : SeriesStore) (selected : list string)
    (entries : SeriesStore) (r : string) :
  foldl (λ entries runId,
           match series !! runId with
           | Some records => <[ runId := records ]> entries
           | None => entries
           end) entries selected !! r
  = if decide (r ∈ selected)
    then match series !! r with
         | Some records => Some records
         | None => entries !! r
         end
    else entries !! r.
Proof.
  revert entries. induction selected as [|runId selected IH]; intros entries.
  - rewrite decide_False; [done|apply not_elem_of_nil].
  - cbn [foldl]. rewrite IH. destruct (decide (r = runId)) as [->|Hne].
    + rewrite (decide_True (P := runId ∈ runId :: selected)) by (by left).
      destruct (series !! runId) as [records|] eqn:Hrun.
      * rewrite lookup_insert_eq. by case_decide.
      * by case_decide.
    + assert (∀ e : SeriesStore,
                match series !! runId with
                | Some records => <[ runId := records ]> e
                | None => e
                end !! r = e !! r) as Hother.
      { intros e. destruct (series !! runId); [|done].
        by rewrite lookup_insert_ne. }
      rewrite Hother.
      destruct (decide (r ∈ selected)) as [Hin|Hnot].
      * rewrite decide_True by (by right). done.
      * rewrite decide_False; [done|]. by apply not_elem_of_cons.
Qed.

Lemma selectedSeries_get (selected : list string) (series : SeriesStore)
    (r : string) :
  selectedSeries selected series !! r
  = if decide (r ∈ selected) then series !! r else None.
Proof.
  unfold selectedSeries. rewrite selectedSeries_fold, lookup_empty.
  case_decide; [|done]. by destruct (series !! r).
Qed.



Lemma dataKey_key runId metric : dataKey runId metric = key runId metric.
Proof. reflexivity. Qed.



(** ** The lines of the chart *)

Lemma lines_lookup (runIds : list string) (metric : string) (i : nat) :
  lines runIds metric !! i
  = (λ runId, (dataKey runId metric, stroke i)) <$> runIds !! i.
Proof. unfold lines. by rewrite list_lookup_imap. Qed.

Lemma stroke_defined (index : nat) : is_Some (stroke index).
Proof.
  unfold stroke. apply lookup_lt_is_Some.
  change (length COLORS) with 3%nat. apply Nat.mod_upper_bound. lia.
Qed.

Lemma stroke_inj (i j : nat) :
  (i < 3)%nat → (j < 3)%nat → stroke i = stroke j → i = j.
Proof.
  intros Hi Hj.
  destruct i as [|[|[|i]]], j as [|[|[|j]]]; try lia; by vm_compute.
Qed.

Lemma lines_distinct (runIds : list string) (metric : string) :
  NoDup runIds →
  NoDup (lines runIds metric).*1 ∧
  Forall (λ line, is_Some line.2) (lines runIds metric) ∧
  ((length runIds <= 3)%nat → NoDup (lines runIds metric).*2).
Proof.
  intros Hnd. split; [|split].
  - apply NoDup_alt. intros i j k0 Hi Hj.
    rewrite list_lookup_fmap, lines_lookup in Hi, Hj.
    destruct (runIds !! i) as [ri|] eqn:Hri; [|done].
    destruct (runIds !! j) as [rj|] eqn:Hrj; [|done].
    simpl in Hi, Hj. injection Hi as <-. injection Hj as Hk.
    rewrite !dataKey_key in Hk. apply key_inj in Hk. subst rj.
    by apply (NoDup_lookup runIds i j ri).
  - apply Forall_lookup. intros i line Hline. rewrite lines_lookup in Hline.
    destruct (runIds !! i); [|done]. injection Hline as <-. apply stroke_defined.
  - intros Hlen. apply NoDup_alt. intros i j c Hi Hj.
    rewrite list_lookup_fmap, lines_lookup in Hi, Hj.
    destruct (runIds !! i) as [ri|] eqn:Hri; [|done].
    destruct (runIds !! j) as [rj|] eqn:Hrj; [|done].
    apply lookup_lt_Some in Hri, Hrj.
    simpl in Hi, Hj. apply stroke_inj; [lia..|congruence].
Qed.

(** X11: the lines of a chart read pairwise different columns of the merged
    rows, each line has a colour, and up to three runs no two lines have the
    same colour; from the fourth run on the colours repeat with period
    three. *)
Theorem chart_lines (runIds : list string) (metric : string) :
  NoDup runIds →
  NoDup (lines runIds metric).*1 ∧
  Forall (λ line, is_Some line.2) (lines runIds metric) ∧
  ((length runIds <= 3)%nat → NoDup (lines runIds metric).*2) ∧
  ∀ index, stroke (index + 3) = stroke index.
Proof.
  intros Hnd. destruct (lines_distinct runIds metric Hnd) as (? & ? & ?).
  split_and!; try done.
  intros index. unfold stroke. change (length COLORS) with 3%nat.
  replace (index + 3)%nat with (index + 1 * 3)%nat by lia.
  by rewrite Nat.Div0.mod_add.
Qed.

Lemma chart_lines_witness :
  NoDup (lines ["runA"; "runB"; "runC"] "avg_waiting").*2.
Proof.
  assert (NoDup ["runA"; "runB"; "runC"]) as Hnd
    by (repeat constructor; set_solver).
  apply (proj1 (proj2 (proj2 (chart_lines ["runA"; "runB"; "runC"] "avg_waiting" Hnd)))).
  simpl. lia.
Defined.

(** X12: on the metrics page no two lines of a chart ever share a colour:
    the selection is capped at three runs, and the chart gets only selected
    runs. *)
Theorem page_lines_coloured_apart (start clicks : list string)
    (series : SeriesStore) (l : MetricsSeries) (metric : string) :
  NoDup start → (length start <= 3)%nat →
  enumerates l (selectedSeries (toggles start clicks) series) →
  NoDup (lines l.*1 metric).*2 ∧ NoDup (lines l.*1 metric).*1.
Proof.
  intros Hnd Hlen [Hkeys Hobj].
  destruct (selection_capped_aux start clicks Hnd Hlen) as [Hsel Hcap].
  destruct (lines_distinct l.*1 metric Hkeys) as (Hcols & _ & Hstrokes).
  split; [|done]. apply Hstrokes.
  etrans; [|exact Hcap]. apply submseteq_length, NoDup_submseteq; [done|].
  intros r Hr. apply list_elem_of_fmap in Hr as ([r' records] & -> & Hin).
  simpl. apply (elem_of_list_to_map (M := gmap string)) in Hin; [|done].
  rewrite Hobj, selectedSeries_get in Hin. by case_decide.
Qed.

Lemma page_lines_coloured_apart_witness :
  NoDup (lines example_series.*1 "vehicle_count").*2 ∧
  NoDup (lines example_series.*1 "vehicle_count").*1.
Proof.
  apply (page_lines_coloured_apart [] ["runA"; "runB"] loaded_series
           example_series "vehicle_count").
  - constructor.
  - simpl. lia.
  - split; [vm_compute; repeat constructor; set_solver|].
    vm_compute. reflexivity.
Defined.

(** ** The CSV export *)

Section export.

Variable String_of_number : Z → string.



End export.

End MetricsPageTheory.

(* ===================================================================== *)
(** * More about the PlaybackEngine *)
(* ===================================================================== *)

Module PlaybackExtras.

Import PlaybackEngine PlayerActions PlaybackTheory.

Lemma currentFrame_inside (frames : list ReplayFrame) (st : State) :
  is_Some (currentFrame frames st) ↔ inside frames st.
Proof.
  unfold currentFrame, inside, length_of.
  destruct (cursor st <? 0) eqn:Hneg.
  - apply Z.ltb_lt in Hneg. split; [by intros [? ?]|lia].
  - apply Z.ltb_ge in Hneg. rewrite lookup_lt_is_Some. lia.
Qed.

(** X14: the player has a current frame exactly when the cursor is inside
    the sequence; a cursor left beyond the end, or an empty sequence, gives
    none. *)
Theorem currentFrame_defined_iff (frames : list ReplayFrame) (st : State) :
  (is_Some (currentFrame frames st) ↔ 0 <= cursor st < length_of frames) ∧
  (length_of frames <= cursor st → currentFrame frames st = None) ∧
  (frames = [] → currentFrame frames st = None).
Proof.
  pose proof (currentFrame_inside frames st) as Hiff. unfold inside in Hiff.
  split; [done|]. split.
  - intros Hbeyond. apply eq_None_not_Some. rewrite Hiff. lia.
  - intros ->. apply eq_None_not_Some. rewrite Hiff. unfold length_of. simpl. lia.
Qed.

Lemma act_inside (frames : list ReplayFrame) (st : State) (a : Action) :
  inside frames st → offered frames a → inside frames (act frames st a).
Proof.
  unfold inside. intros Hin Hoffered. destruct a as [|value|sel loading]; simpl.
  - unfold tick. destruct (interval_installed frames st); [|done].
    unfold setCursor_with, setCursor, advance. cbn [cursor].
    destruct (cursor st >=? length_of frames - 1) eqn:Hlast; lia.
  - destruct Hoffered as [_ Hrange]. unfold slider_min, slider_max in Hrange.
    unfold onValueChange, setCursor. cbn [cursor]. lia.
  - unfold press_play. by destruct (play_disabled sel loading frames).
Qed.

(** X15: once the cursor is inside the sequence, no tick, press of the play
    button or value from the slider's range takes it outside: the player
    always has a current frame. *)
Theorem cursor_stays_inside (frames : list ReplayFrame) (st : State)
    (actions : list Action) :
  0 <= cursor st < length_of frames →
  Forall (offered frames) actions →
  0 <= cursor (foldl (act frames) st actions) < length_of frames ∧
  is_Some (currentFrame frames (foldl (act frames) st actions)).
Proof.
  intros Hin Hoffered.
  assert (inside frames (foldl (act frames) st actions)) as Hfinal.
  { revert st Hin.
    induction Hoffered as [|a actions Ha _ IH]; intros st Hin; [done|].
    simpl. by apply IH, act_inside. }
  split; [done|]. by apply currentFrame_inside.
Qed.

Lemma cursor_stays_inside_witness :
  is_Some (currentFrame three_frames
             (foldl (act three_frames) initial
                [PressPlay (Some "run") false; Tick; SliderChange 2; Tick;
                 SliderChange 1])).
Proof.
  apply (cursor_stays_inside three_frames initial
           [PressPlay (Some "run") false; Tick; SliderChange 2; Tick;
            SliderChange 1]).
  - vm_compute. split; [discriminate|reflexivity].
  - repeat constructor; vm_compute; discriminate.
Defined.

(** X16: a tick while playing brings any cursor that is not negative back
    inside a non-empty sequence - also one left beyond the end by a sequence
    that was replaced with a shorter one. *)
Theorem tick_recovers (frames : list ReplayFrame) (st : State) :
  frames ≠ [] → playing st = true → 0 <= cursor st →
  0 <= cursor (tick frames st) < length_of frames ∧
  (length_of frames - 1 <= cursor st → cursor (tick frames st) = 0).
Proof.
  intros Hne Hplay Hpos. apply length_of_pos in Hne.
  unfold tick, interval_installed. rewrite Hplay.
  destruct (length_of frames =? 0) eqn:Hz; [apply Z.eqb_eq in Hz; lia|].
  cbn [negb orb]. unfold setCursor_with, setCursor, advance. cbn [cursor].
  destruct (cursor st >=? length_of frames - 1) eqn:Hlast; lia.
Qed.

Lemma tick_recovers_witness :
  cursor (tick three_frames {| cursor := 40; playing := true |}) = 0.
Proof.
  refine (proj2 (tick_recovers three_frames {| cursor := 40; playing := true |}
                   _ _ _) _).
  - discriminate.
  - reflexivity.
  - simpl. lia.
  - vm_compute. discriminate.
Defined.


End PlaybackExtras.

(* ===================================================================== *)
(** * More about the StreamClient *)
(* ===================================================================== *)

Module StreamExtras.

Import StreamClient StreamInvariants StreamTheory.

(** ** Detaching twice *)

Lemma close_twice (id : nat) (so : gmap nat ReadyState) :
  alter (λ st, match st with CONNECTING | OPEN => CLOSING | _ => st end) id
    (alter (λ st, match st with CONNECTING | OPEN => CLOSING | _ => st end) id so)
  = alter (λ st, match st with CONNECTING | OPEN => CLOSING | _ => st end) id so.
Proof.
  apply map_eq. intros j. rewrite !lookup_alter.
  case_decide; [|done]. rewrite decide_True by done.
  by destruct (so !! id) as [[]|].
Qed.

(** X18: the handle can be used any number of times: a second call changes
    nothing. *)
Theorem cleanup_idempotent (s : Session) : cleanup (cleanup s) = cleanup s.
Proof.
  destruct s as [sk st ft rt ct so ti rq nx dl co].
  unfold cleanup, stopFallback, clearTimeout, abort, close.
  destruct ft, ct, rt, sk; cbn; by rewrite ?close_twice.
Qed.

(** ** The timer variables and the pending timeouts *)

Lemma tinv_same (s s' : Session) :
  timers s' = timers s → fallbackTimer s' = fallbackTimer s →
  reconnectTimer s' = reconnectTimer s → next_id s' = next_id s →
  stopped s' = stopped s → requests s' = requests s →
  timer_invariant s → timer_invariant s'.
Proof.
  intros Hti Hft Hrt Hnx Hst Hrq [H1 H2 H3 H4]. split.
  - intros id cb. rewrite Hti, Hnx. apply H1.
  - intros ft. rewrite Hft, Hti, Hnx. apply H2.
  - intros id. rewrite Hrt, Hti. apply H3.
  - intros ft. rewrite Hft, Hti, Hst, Hrq. apply H4.
Qed.

Lemma pollState_issues (s : Session) :
  stopped s = false → is_Some (requests (pollState s) !! next_id s).
Proof.
  intros Hst. unfold pollState, issue_request, abort_previous. rewrite Hst.
  destruct (controller s); simpl; rewrite lookup_insert_eq; eauto.
Qed.

Lemma pollState_more (s : Session) :
  timers (pollState s) = timers s ∧
  fallbackTimer (pollState s) = fallbackTimer s ∧
  reconnectTimer (pollState s) = reconnectTimer s ∧
  stopped (pollState s) = stopped s ∧
  (next_id s <= next_id (pollState s))%nat ∧
  (∀ id, is_Some (requests s !! id) → is_Some (requests (pollState s) !! id)).
Proof.
  unfold pollState, issue_request, abort_previous.
  destruct (stopped s) eqn:Hst; [by rewrite Hst|].
  destruct (controller s) as [c|]; simpl; split_and!; try done; try lia.
  - intros id Hid. rewrite lookup_insert. case_decide; [eauto|].
    rewrite lookup_alter. case_decide; [|done]. subst.
    by apply fmap_is_Some.
  - intros id Hid. rewrite lookup_insert. case_decide; [eauto|done].
Qed.

Lemma tinv_pollState (s : Session) :
  timer_invariant s → timer_invariant (pollState s).
Proof.
  intros [H1 H2 H3 H4].
  destruct (pollState_more s) as (Hti & Hft & Hrt & Hst & Hnx & Hrq). split.
  - intros id cb. rewrite Hti. intros Hid. specialize (H1 _ _ Hid). lia.
  - intros ft. rewrite Hft, Hti. intros Hf. destruct (H2 _ Hf). split; [lia|done].
  - intros id. rewrite Hrt, Hti. apply H3.
  - intros ft. rewrite Hft, Hst. intros Hf Hstop. right.
    exists (next_id s). by apply pollState_issues.
Qed.

Lemma tinv_ensureFallback (s : Session) :
  timer_invariant s → timer_invariant (ensureFallback s).
Proof.
  unfold ensureFallback. destruct (fallbackTimer s); [done|].
  apply tinv_pollState.
Qed.

Lemma scheduleReconnect_why (s : Session) :
  (scheduleReconnect s = s ∧ (is_Some (reconnectTimer s) ∨ stopped s = true)) ∨
  (reconnectTimer s = None ∧ stopped s = false ∧
   scheduleReconnect s
   = set_reconnectTimer (Some (next_id s))
       (set_timers (<[next_id s := cb_reconnect]> (timers s)) (fresh s))).
Proof.
  unfold scheduleReconnect. destruct (reconnectTimer s) as [rt|] eqn:Hrt.
  - rewrite bool_decide_eq_true_2 by done. left. eauto.
  - rewrite bool_decide_eq_false_2 by (by intros []).
    destruct (stopped s); [left|right]; eauto.
Qed.

Lemma tinv_scheduleReconnect (s : Session) :
  timer_invariant s → timer_invariant (scheduleReconnect s).
Proof.
  intros [H1 H2 H3 H4].
  destruct (scheduleReconnect_why s) as [[-> _]|(Hrt & Hst & ->)]; [done|].
  split; simpl.
  - intros id cb. rewrite lookup_insert. case_decide; [intros; lia|].
    intros Hid. specialize (H1 _ _ Hid). lia.
  - intros ft Hf. destruct (H2 _ Hf) as [Hlt Hcb].
    rewrite lookup_insert_ne by lia. split; [lia|done].
  - intros id [= <-]. by rewrite lookup_insert_eq.
  - intros ft Hf Hstop. destruct (H2 _ Hf) as [Hlt _].
    rewrite lookup_insert_ne by lia. by apply H4.
Qed.

Lemma tinv_stopFallback (s : Session) :
  timer_invariant s →
  timer_invariant (stopFallback s) ∧ fallbackTimer (stopFallback s) = None.
Proof.
  intros [H1 H2 H3 H4]. unfold stopFallback.
  destruct (fallbackTimer s) as [ft|] eqn:Hft; simpl;
    destruct (controller s) as [c|]; simpl; (split; [split; simpl|done]);
    try done.
  all: try (intros id cb; rewrite lookup_delete; case_decide; [done|];
            apply H1).
  all: try (intros id Hid; rewrite lookup_delete; case_decide as Heq;
            [subst; destruct (H2 _ eq_refl) as [_ Hcb]; by destruct Hcb, (H3 _ Hid)
            |by apply H3]).
  all: try (intros ft' Hf; rewrite Hft in Hf; done).
  all: try (intros ft' Hf _; rewrite Hft in Hf; done).
Qed.

Lemma tinv_resume (outcome : Outcome) (s : Session) (rq : gmap nat bool) :
  timer_invariant s →
  timer_invariant (pollState_resume outcome (set_requests rq s)).
Proof.
  intros [H1 H2 H3 H4]. unfold pollState_resume.
  assert (∀ s1, timers s1 = timers s → next_id s1 = next_id s →
                reconnectTimer s1 = reconnectTimer s →
                timer_invariant
                  (set_fallbackTimer (Some (next_id s1))
                     (set_timers (<[next_id s1 := cb_pollState]> (timers s1))
                        (fresh s1)))) as Hgoal.
  { intros s1 Hti Hnx Hrt. split; simpl; rewrite ?Hti, ?Hnx, ?Hrt.
    - intros id cb. rewrite lookup_insert. case_decide; [intros; lia|].
      intros Hid. specialize (H1 _ _ Hid). lia.
    - intros ft [= <-]. rewrite lookup_insert_eq. split; [lia|done].
    - intros id Hid. specialize (H3 _ Hid). specialize (H1 _ _ H3).
      by rewrite lookup_insert_ne by lia.
    - intros ft [= <-] _. left. by rewrite lookup_insert_eq. }
  destruct outcome as [state|]; [destruct (truthy state)|]; by apply Hgoal.
Qed.

Lemma tinv_connectSocket (throws : bool) (s : Session) :
  timer_invariant s → timer_invariant (connectSocket throws s).
Proof.
  intros Hinv. unfold connectSocket. destruct (stopped s); [done|].
  destruct throws.
  - apply tinv_scheduleReconnect, tinv_ensureFallback.
    by apply (tinv_same s).
  - destruct Hinv as [H1 H2 H3 H4]. split; simpl.
    + intros id cb Hid. specialize (H1 _ _ Hid). lia.
    + intros ft Hf. destruct (H2 _ Hf). split; [lia|done].
    + done.
    + done.
Qed.

Lemma tinv_poll_timer (s : Session) (id : nat) :
  timer_invariant s → timers s !! id = Some cb_pollState →
  timer_invariant (pollState (set_timers (delete id (timers s)) s)).
Proof.
  intros [H1 H2 H3 H4] Hid.
  set (s1 := set_timers (delete id (timers s)) s).
  destruct (pollState_more s1) as (Hti & Hft & Hrt & Hst & Hnx & Hrq). split.
  - intros id' cb. rewrite Hti. simpl. rewrite lookup_delete.
    case_decide; [done|]. intros Hid'. specialize (H1 _ _ Hid'). simpl in Hnx. lia.
  - intros ft. rewrite Hft, Hti. simpl. intros Hf. destruct (H2 _ Hf) as [Hlt Hcb].
    simpl in Hnx. split; [lia|]. rewrite lookup_delete. by case_decide.
  - intros rid. rewrite Hrt, Hti. simpl. intros Hrid. specialize (H3 _ Hrid).
    rewrite lookup_delete_ne; [done|]. intros ->. congruence.
  - intros ft. rewrite Hft, Hst. simpl. intros Hf Hstop. right.
    exists (next_id s1). by apply pollState_issues.
Qed.

Lemma tinv_reconnect_timer (throws : bool) (s : Session) (id : nat) :
  timer_invariant s → timers s !! id = Some cb_reconnect →
  timer_invariant (reconnect throws (set_timers (delete id (timers s)) s)).
Proof.
  intros [H1 H2 H3 H4] Hid. unfold reconnect. apply tinv_connectSocket.
  split; simpl.
  - intros id' cb. rewrite lookup_delete. case_decide; [done|]. apply H1.
  - intros ft Hf. destruct (H2 _ Hf) as [Hlt Hcb]. split; [done|].
    rewrite lookup_delete. by case_decide.
  - done.
  - intros ft Hf Hstop. destruct (H2 _ Hf) as [_ Hcb].
    rewrite lookup_delete_ne by (intros ->; congruence). by apply H4.
Qed.

Lemma tinv_cleanup (s : Session) :
  timer_invariant s → timer_invariant (cleanup s).
Proof.
  intros Hinv. unfold cleanup.
  destruct (tinv_stopFallback (set_stopped true s)) as [Hs1 Hnone].
  { destruct Hinv as [H1 H2 H3 H4]. by split. }
  set (s1 := stopFallback (set_stopped true s)) in *.
  assert (timer_invariant
            match reconnectTimer s1 with
            | Some id => set_reconnectTimer None (clearTimeout id s1)
            | None => s1
            end) as Hs2.
  { destruct (reconnectTimer s1) as [rt|] eqn:Hrt; [|done].
    destruct Hs1 as [H1 H2 H3 H4]. split; simpl.
    - intros id cb. rewrite lookup_delete. case_decide; [done|]. apply H1.
    - intros ft Hf. congruence.
    - done.
    - intros ft Hf. congruence. }
  destruct (socket _) as [sid|]; [|done]. by eapply tinv_same; [..|exact Hs2].
Qed.

Lemma step_timer_invariant JSON_parse (s s' : Session) (e : Event) :
  timer_invariant s → step JSON_parse s e = Some s' → timer_invariant s'.
Proof.
  intros Hinv Hstep.
  destruct e as [sock|sock data|sock|sock|id throws|req outcome|];
    simpl in Hstep.
  - destruct (sockets s !! sock) as [[]|]; try done. injection Hstep as <-.
    unfold onopen. apply tinv_stopFallback. by apply (tinv_same s).
  - destruct (sockets s !! sock) as [[]|]; try done. injection Hstep as <-.
    unfold onmessage. destruct (JSON_parse data) as [payload|];
      [destruct (truthy (state_of payload))|]; by apply (tinv_same s).
  - assert (timer_invariant (onerror s)) as Hgoal.
    { unfold onerror. apply tinv_ensureFallback. by apply (tinv_same s). }
    destruct (sockets s !! sock) as [[]|]; try done; by injection Hstep as <-.
  - assert (timer_invariant
              (onclose (set_sockets (<[sock := CLOSED]> (sockets s)) s)))
      as Hgoal.
    { unfold onclose. apply tinv_scheduleReconnect, tinv_ensureFallback.
      by apply (tinv_same s). }
    destruct (sockets s !! sock) as [[]|]; try done; by injection Hstep as <-.
  - destruct (timers s !! id) as [[]|] eqn:Hid; [| |done];
      injection Hstep as <-.
    + by apply tinv_poll_timer.
    + by apply tinv_reconnect_timer.
  - destruct (requests s !! req) as [aborted|]; [|done].
    destruct (aborted && is_resolved outcome); [done|].
    injection Hstep as <-. by apply tinv_resume.
  - injection Hstep as <-. by apply tinv_cleanup.
Qed.

Lemma reachable_timer_invariant JSON_parse (s : Session) :
  reachable JSON_parse s → timer_invariant s.
Proof.
  intros (throws & events & Hrun).
  assert (timer_invariant (connectStateStream throws)) as Hinit.
  { apply tinv_connectSocket. split; simpl; intros *; try done;
      by rewrite lookup_empty. }
  revert Hrun Hinit. generalize (connectStateStream throws).
  induction events as [|e events IH]; intros s0 Hrun Hinv; simpl in Hrun.
  - by injection Hrun as <-.
  - destruct (step JSON_parse s0 e) as [s1|] eqn:Hstep; [|done].
    eapply IH; [exact Hrun|]. by eapply step_timer_invariant.
Qed.

(** ** What one step may add to the timeouts and the requests *)

Lemma fallback_running_mono (s s' : Session) :
  (∀ id, timers s !! id = Some cb_pollState →
         timers s' !! id = Some cb_pollState) →
  (∀ id, is_Some (requests s !! id) → is_Some (requests s' !! id)) →
  fallback_running s → fallback_running s'.
Proof.
  intros Hti Hrq [[id Hid]|[id Hid]]; [left|right]; exists id; eauto.
Qed.

Lemma ensureFallback_more (s : Session) :
  timers (ensureFallback s) = timers s ∧
  reconnectTimer (ensureFallback s) = reconnectTimer s ∧
  stopped (ensureFallback s) = stopped s ∧
  (∀ id, is_Some (requests s !! id) →
         is_Some (requests (ensureFallback s) !! id)).
Proof.
  unfold ensureFallback. destruct (fallbackTimer s); [done|].
  destruct (pollState_more s) as (? & ? & ? & ? & ? & ?). done.
Qed.

Lemma ensureFallback_running (s : Session) :
  timer_invariant s → stopped s = false → fallback_running (ensureFallback s).
Proof.
  intros [H1 H2 H3 H4] Hst. unfold ensureFallback.
  destruct (fallbackTimer s) as [ft|] eqn:Hft.
  - destruct (H4 ft eq_refl Hst) as [Hpending|Hreq]; [left|right]; eauto.
  - right. exists (next_id s). by apply pollState_issues.
Qed.

Lemma scheduleReconnect_more (s : Session) :
  timer_invariant s →
  (∀ id, timers s !! id = Some cb_pollState →
         timers (scheduleReconnect s) !! id = Some cb_pollState) ∧
  requests (scheduleReconnect s) = requests s.
Proof.
  intros [H1 _ _ _].
  destruct (scheduleReconnect_why s) as [[-> _]|(_ & _ & ->)]; [done|].
  simpl. split; [|done]. intros id Hid. specialize (H1 _ _ Hid).
  by rewrite lookup_insert_ne by lia.
Qed.

Lemma scheduleReconnect_scheduled (s : Session) :
  timer_invariant s → stopped s = false →
  reconnect_scheduled (scheduleReconnect s).
Proof.
  intros [_ _ H3 _] Hst.
  destruct (scheduleReconnect_why s) as [[-> [[id Hid]|Hstop]]|(_ & _ & ->)].
  - exists id. split; [done|]. by apply H3.
  - congruence.
  - exists (next_id s). simpl. by rewrite lookup_insert_eq.
Qed.

Lemma lost_transport (s : Session) :
  timer_invariant s → stopped s = false →
  fallback_running (scheduleReconnect (ensureFallback s)) ∧
  reconnect_scheduled (scheduleReconnect (ensureFallback s)).
Proof.
  intros Hinv Hst.
  pose proof (tinv_ensureFallback s Hinv) as Hinv'.
  destruct (ensureFallback_more s) as (_ & _ & Hst' & _).
  destruct (scheduleReconnect_more _ Hinv') as [Hti Hrq]. split.
  - eapply fallback_running_mono; [exact Hti| |by apply ensureFallback_running].
    intros id. by rewrite Hrq.
  - apply scheduleReconnect_scheduled; [done|congruence].
Qed.

Lemma tinv_reconnect_fired (s : Session) (id : nat) :
  timer_invariant s → timers s !! id = Some cb_reconnect →
  timer_invariant (set_reconnectTimer None (set_timers (delete id (timers s)) s)).
Proof.
  intros [H1 H2 H3 H4] Hid. split; simpl.
  - intros id' cb. rewrite lookup_delete. case_decide; [done|]. apply H1.
  - intros ft Hf. destruct (H2 _ Hf) as [Hlt Hcb]. split; [done|].
    rewrite lookup_delete. by case_decide.
  - done.
  - intros ft Hf Hstop. destruct (H2 _ Hf) as [_ Hcb].
    rewrite lookup_delete_ne by (intros ->; congruence). by apply H4.
Qed.

Lemma connectSocket_more (throws : bool) (s : Session) :
  timer_invariant s →
  (∀ id, timers s !! id = Some cb_pollState →
         timers (connectSocket throws s) !! id = Some cb_pollState) ∧
  (∀ id, is_Some (requests s !! id) →
         is_Some (requests (connectSocket throws s) !! id)).
Proof.
  intros Hinv. unfold connectSocket. destruct (stopped s); [done|].
  destruct throws; [|done].
  set (s1 := log unable_to_open s).
  assert (timer_invariant s1) as Hinv1 by (by apply (tinv_same s)).
  destruct (ensureFallback_more s1) as (Hti & _ & _ & Hrq).
  destruct (scheduleReconnect_more _ (tinv_ensureFallback s1 Hinv1))
    as [Hti' Hrq'].
  split.
  - intros id Hid. apply Hti'. by rewrite Hti.
  - intros id Hid. rewrite Hrq'. by apply Hrq.
Qed.

Lemma stopFallback_requests (s : Session) (id : nat) :
  is_Some (requests (stopFallback s) !! id) ↔ is_Some (requests s !! id).
Proof.
  unfold stopFallback.
  destruct (fallbackTimer s); simpl; destruct (controller s) as [c|]; simpl;
    try done; rewrite lookup_alter; case_decide; subst;
    by rewrite ?fmap_is_Some.
Qed.

(** ** Properties *)

Section session.

Variable JSON_parse : string → option json.

(** X19: in every state of a session at most one socket is not closed, and
    it is the one the variable [socket] refers to. *)
Theorem one_live_socket (s : Session) :
  reachable JSON_parse s →
  (∀ id st, sockets s !! id = Some st → st ≠ CLOSED → socket s = Some id) ∧
  (∀ id1 id2 st1 st2,
     sockets s !! id1 = Some st1 → st1 ≠ CLOSED →
     sockets s !! id2 = Some st2 → st2 ≠ CLOSED → id1 = id2).
Proof.
  intros Hreach. apply reachable_invariant in Hreach as [_ Hs _].
  split; [exact Hs|]. intros id1 id2 st1 st2 H1 Hst1 H2 Hst2.
  pose proof (Hs _ _ H1 Hst1). pose proof (Hs _ _ H2 Hst2). congruence.
Qed.

(** X20: a reconnect attempt is pending only while every socket is closed,
    and never two at once: the pending reconnect timeout is the one in
    [reconnectTimer]. *)
Theorem reconnect_only_when_disconnected (s : Session) (id : nat) :
  reachable JSON_parse s → timers s !! id = Some cb_reconnect →
  reconnectTimer s = Some id ∧
  (∀ sid st, sockets s !! sid = Some st → st = CLOSED) ∧
  (∀ id', timers s !! id' = Some cb_reconnect → id' = id).
Proof.
  intros Hreach Hid. apply reachable_invariant in Hreach as [_ _ Hr].
  destruct (Hr id Hid) as [Hrt Hclosed]. split; [done|]. split; [done|].
  intros id' Hid'. destruct (Hr id' Hid') as [Hrt' _]. congruence.
Qed.

(** X21: when a socket opens, the pending poll timeout is cancelled and
    the outstanding request is aborted: right after the [open] event no
    request is in flight, and when a request that was issued before settles,
    nothing reaches the listener. *)
Theorem open_cancels_polling (s s' : Session) (sock : nat) :
  reachable JSON_parse s → step JSON_parse s (SocketOpened sock) = Some s' →
  sockets s' !! sock = Some OPEN ∧
  fallbackTimer s' = None ∧ controller s' = None ∧
  (∀ ft, fallbackTimer s = Some ft → timers s' !! ft = None) ∧
  (∀ id, ¬ in_flight s' id) ∧
  ∀ req outcome s'',
    step JSON_parse s' (FetchSettled req outcome) = Some s'' →
    delivered s'' = delivered s'.
Proof.
  intros Hreach Hstep.
  pose proof (reachable_timer_invariant _ _ Hreach) as Htinv.
  apply reachable_invariant in Hreach as [Hc _ _].
  simpl in Hstep. destruct (sockets s !! sock) as [[]|] eqn:Hsock; try done.
  injection Hstep as <-. unfold onopen.
  set (s1 := set_sockets (<[sock := OPEN]> (sockets s)) s).
  destruct (stopFallback_frame s1) as (Hso & _ & _ & _ & _ & Hct & _).
  destruct (tinv_stopFallback s1) as [_ Hft]; [by apply (tinv_same s)|].
  assert (∀ id, ¬ in_flight (stopFallback s1) id) as Hnone.
  { intros id. apply stopFallback_no_flight. by apply (controlled_same s). }
  split; [by rewrite Hso; simpl; rewrite lookup_insert_eq|].
  split; [done|]. split; [done|]. split; [|split; [done|]].
  - intros ft Hf. unfold stopFallback. simpl. rewrite Hf. simpl.
    destruct (controller s); simpl; by rewrite lookup_delete_eq.
  - intros req outcome s'' Hsettle. simpl in Hsettle.
    destruct (requests (stopFallback s1) !! req) as [[|]|] eqn:Hreq; [| |done].
    + destruct outcome as [state|]; [done|]. simpl in Hsettle.
      by injection Hsettle as <-.
    + by destruct (Hnone req).
Qed.

(** X22: when the push transport is lost in a session that is not detached
    - an [error] or a [close] event - the fallback is running afterwards,
    and after a [close] a reconnect attempt is scheduled. *)
Theorem lost_connection_falls_back (s : Session) :
  reachable JSON_parse s → stopped s = false →
  (∀ sock s', step JSON_parse s (SocketError sock) = Some s' →
              fallback_running s') ∧
  (∀ sock s', step JSON_parse s (SocketClosed sock) = Some s' →
              fallback_running s' ∧ reconnect_scheduled s').
Proof.
  intros Hreach Hst.
  pose proof (reachable_timer_invariant _ _ Hreach) as Htinv. split.
  - intros sock s' Hstep. simpl in Hstep.
    assert (fallback_running (onerror s)) as Hgoal.
    { unfold onerror. apply ensureFallback_running; [|done].
      by apply (tinv_same s). }
    destruct (sockets s !! sock) as [[]|]; try done; by injection Hstep as <-.
  - intros sock s' Hstep. simpl in Hstep.
    assert (fallback_running
              (onclose (set_sockets (<[sock := CLOSED]> (sockets s)) s)) ∧
            reconnect_scheduled
              (onclose (set_sockets (<[sock := CLOSED]> (sockets s)) s)))
      as Hgoal.
    { unfold onclose. apply lost_transport; [|done]. by apply (tinv_same s). }
    destruct (sockets s !! sock) as [[]|]; try done; by injection Hstep as <-.
Qed.

(** X23: when [new WebSocket] throws - at the start of the session or at a
    reconnect attempt - the fallback is running afterwards and the next
    reconnect attempt is scheduled. *)
Theorem failed_construction_falls_back :
  (fallback_running (connectStateStream true) ∧
   reconnect_scheduled (connectStateStream true)) ∧
  ∀ s id s',
    reachable JSON_parse s → stopped s = false →
    timers s !! id = Some cb_reconnect →
    step JSON_parse s (TimerFired id true) = Some s' →
    fallback_running s' ∧ reconnect_scheduled s'.
Proof.
  split.
  - unfold connectStateStream, connectSocket. simpl.
    apply lost_transport; [|done].
    split; simpl; intros *; try done; by rewrite lookup_empty.
  - intros s id s' Hreach Hst Hid Hstep.
    pose proof (reachable_timer_invariant _ _ Hreach) as [H1 H2 H3 H4].
    simpl in Hstep. rewrite Hid in Hstep. injection Hstep as <-.
    unfold reconnect, connectSocket. simpl. rewrite Hst.
    apply lost_transport; [|done]. split; simpl.
    + intros id' cb. rewrite lookup_delete. case_decide; [done|]. apply H1.
    + intros ft Hf. destruct (H2 _ Hf) as [Hlt Hcb]. split; [done|].
      rewrite lookup_delete. by case_decide.
    + done.
    + intros ft Hf Hstop. destruct (H2 _ Hf) as [_ Hcb].
      rewrite lookup_delete_ne by (intros ->; congruence). by apply H4.
Qed.

(** X24: the fallback does not stop by itself: in a session that is not
    detached, once the fallback is running it is still running after every
    event other than the opening of a socket and the use of the handle. *)
Theorem fallback_keeps_running (s s' : Session) (e : Event) :
  reachable JSON_parse s → stopped s = false → fallback_running s →
  step JSON_parse s e = Some s' →
  e ≠ Detach → (∀ sock, e ≠ SocketOpened sock) →
  fallback_running s'.
Proof.
  intros Hreach Hst Hrun Hstep Hdetach Hopen.
  pose proof (reachable_timer_invariant _ _ Hreach) as Htinv.
  destruct e as [sock|sock data|sock|sock|id throws|req outcome|];
    simpl in Hstep.
  - by destruct (Hopen sock).
  - destruct (sockets s !! sock) as [[]|]; try done. injection Hstep as <-.
    destruct (onmessage_frame JSON_parse data s) as (_ & Hti & Hrq & _).
    eapply fallback_running_mono; [| |exact Hrun]; intros id;
      by rewrite ?Hti, ?Hrq.
  - assert (fallback_running (onerror s)) as Hgoal.
    { unfold onerror. apply ensureFallback_running; [|done].
      by apply (tinv_same s). }
    destruct (sockets s !! sock) as [[]|]; try done; by injection Hstep as <-.
  - assert (fallback_running
              (onclose (set_sockets (<[sock := CLOSED]> (sockets s)) s)))
      as Hgoal.
    { unfold onclose. apply lost_transport; [|done]. by apply (tinv_same s). }
    destruct (sockets s !! sock) as [[]|]; try done; by injection Hstep as <-.
  - destruct (timers s !! id) as [[]|] eqn:Hid; [| |done];
      injection Hstep as <-.
    + right. exists (next_id s).
      by apply (pollState_issues (set_timers (delete id (timers s)) s)).
    + unfold reconnect.
      set (s2 := set_reconnectTimer None (set_timers (delete id (timers s)) s)).
      destruct (connectSocket_more throws s2) as [Hti Hrq];
        [by apply tinv_reconnect_fired|].
      eapply fallback_running_mono; [exact Hti|exact Hrq|].
      eapply fallback_running_mono; [| |exact Hrun]; simpl; [|done].
      intros id' Hid'. rewrite lookup_delete_ne; [done|]. intros ->. congruence.
  - destruct (requests s !! req) as [aborted|]; [|done].
    destruct (aborted && is_resolved outcome); [done|].
    injection Hstep as <-. left. unfold pollState_resume.
    destruct outcome as [state|]; [destruct (truthy state)|]; simpl;
      eexists; apply lookup_insert_eq.
  - done.
Qed.

Lemma step_quiet_domains (s s' : Session) (e : Event) :
  invariant s → quiet s → step JSON_parse s e = Some s' →
  (∀ id, is_Some (sockets s' !! id) → is_Some (sockets s !! id)) ∧
  (∀ id, is_Some (requests s' !! id) → is_Some (requests s !! id)).
Proof.
  intros Hinv (Hst & Hrq & Hso) Hstep.
  destruct e as [sock|sock data|sock|sock|id throws|req outcome|];
    simpl in Hstep.
  - destruct (sockets s !! sock) as [st|] eqn:Hsock; [|done].
    destruct (Hso _ _ Hsock) as [-> | ->]; done.
  - destruct (sockets s !! sock) as [st|] eqn:Hsock; [|done].
    destruct (Hso _ _ Hsock) as [-> | ->]; done.
  - assert (onerror s = log stream_error s) as Herr.
    { unfold onerror. by apply (stopped_idle (log stream_error s)). }
    rewrite Herr in Hstep.
    destruct (sockets s !! sock) as [[]|]; try done; by injection Hstep as <-.
  - destruct (sockets s !! sock) as [st0|] eqn:Hsock; [|done].
    set (s1 := set_sockets (<[sock := CLOSED]> (sockets s)) s) in *.
    assert (onclose s1 = s1) as Hclose.
    { unfold onclose. destruct (stopped_idle s1 Hst) as (_ & -> & -> & _). done. }
    rewrite Hclose in Hstep.
    assert (s' = s1) as -> by (destruct st0; try done; by injection Hstep as <-).
    split; [|done]. intros id. simpl. rewrite lookup_insert.
    case_decide; [subst; by rewrite Hsock|done].
  - destruct (timers s !! id) as [cb|] eqn:Hid; [|done].
    injection Hstep as <-.
    set (s1 := set_timers (delete id (timers s)) s).
    destruct cb.
    + destruct (stopped_idle s1 Hst) as (-> & _). done.
    + unfold reconnect.
      destruct (stopped_idle (set_reconnectTimer None s1) Hst) as (_ & _ & _ & ->).
      done.
  - destruct (requests s !! req) as [aborted|] eqn:Hreq; [|done].
    rewrite (Hrq _ _ Hreq) in Hstep. destruct outcome as [state|]; [done|].
    injection Hstep as <-. split; [done|].
    intros id. simpl. rewrite lookup_delete. case_decide; [by intros [? ?]|done].
  - injection Hstep as <-. split.
    + intros id. rewrite cleanup_sockets. case_decide; [|done].
      by rewrite fmap_is_Some.
    + intros id. destruct (cleanup_frame s) as (-> & _).
      by rewrite stopFallback_requests.
Qed.

Lemma run_detached (events : list Event) (s s' : Session) :
  invariant s → quiet s → run JSON_parse s events = Some s' →
  quiet s' ∧ delivered s' = delivered s ∧
  (∀ id, is_Some (sockets s' !! id) → is_Some (sockets s !! id)) ∧
  (∀ id, is_Some (requests s' !! id) → is_Some (requests s !! id)).
Proof.
  revert s. induction events as [|e events IH]; intros s Hinv Hq Hrun;
    simpl in Hrun.
  - by injection Hrun as <-.
  - destruct (step JSON_parse s e) as [s1|] eqn:Hstep; [|done].
    destruct (step_quiet JSON_parse s s1 e Hinv Hq Hstep) as [Hq1 Hd1].
    destruct (step_quiet_domains s s1 e Hinv Hq Hstep) as [Hso1 Hrq1].
    destruct (IH s1) as (Hq' & Hd' & Hso' & Hrq'); [by eapply step_invariant|done..|].
    split; [done|]. split; [congruence|]. split; eauto.
Qed.

(** X25: once the handle has been used, the listener is not called again,
    whatever events follow - also when the answer to a request was on its
    way. *)
Theorem listener_silent_after_detach (s s' : Session) (events : list Event) :
  reachable JSON_parse s →
  run JSON_parse (cleanup s) events = Some s' →
  delivered s' = delivered s.
Proof.
  intros Hreach Hrun. apply reachable_invariant in Hreach.
  destruct (run_detached events (cleanup s) s') as (_ & -> & _);
    [by apply cleanup_invariant|by apply cleanup_quiet|done|].
  apply cleanup_frame.
Qed.

(** X26: once the handle has been used, the session stays stopped; no
    socket is constructed and no request is issued any more, every socket
    is closing or closed, and every outstanding request is aborted. *)
Theorem nothing_started_after_detach (s s' : Session) (events : list Event) :
  reachable JSON_parse s →
  run JSON_parse (cleanup s) events = Some s' →
  stopped s' = true ∧
  (∀ id, is_Some (sockets s' !! id) → is_Some (sockets s !! id)) ∧
  (∀ id, is_Some (requests s' !! id) → is_Some (requests s !! id)) ∧
  (∀ id st, sockets s' !! id = Some st → st = CLOSING ∨ st = CLOSED) ∧
  (∀ id aborted, requests s' !! id = Some aborted → aborted = true).
Proof.
  intros Hreach Hrun. apply reachable_invariant in Hreach.
  destruct (run_detached events (cleanup s) s')
    as ((Hst & Hrq & Hso) & _ & Hsockets & Hrequests);
    [by apply cleanup_invariant|by apply cleanup_quiet|done|].
  split; [done|]. split; [|split; [|done]].
  - intros id Hid. apply Hsockets in Hid. rewrite cleanup_sockets in Hid.
    case_decide; [|done]. by rewrite fmap_is_Some in Hid.
  - intros id Hid. apply Hrequests in Hid.
    destruct (cleanup_frame s) as (Heq & _). rewrite Heq in Hid.
    by rewrite stopFallback_requests in Hid.
Qed.

End session.

(** ** Sample runs *)

Lemma polling_session_reachable : reachable sample_parse polling_session.
Proof.
  exists false, [ SocketClosed 0%nat; FetchSettled 1%nat (Resolved (snapshot 1));
                  TimerFired 3%nat false ].
  vm_compute. reflexivity.
Qed.

Lemma reconnecting_session_reachable :
  reachable sample_parse reconnecting_session.
Proof.
  exists false, [ SocketClosed 0%nat; FetchSettled 1%nat (Resolved (snapshot 1));
                  TimerFired 2%nat false; TimerFired 3%nat false ].
  vm_compute. reflexivity.
Qed.

Lemma one_live_socket_witness : socket reconnecting_session = Some 4%nat.
Proof.
  apply (proj1 (one_live_socket sample_parse reconnecting_session
                  reconnecting_session_reachable) 4%nat CONNECTING).
  - vm_compute. reflexivity.
  - discriminate.
Defined.

Lemma reconnect_only_when_disconnected_witness :
  reconnectTimer polling_session = Some 2%nat ∧
  ∀ sid st, sockets polling_session !! sid = Some st → st = CLOSED.
Proof.
  destruct (reconnect_only_when_disconnected sample_parse polling_session 2%nat
              polling_session_reachable) as (Hrt & Hclosed & _).
  - vm_compute. reflexivity.
  - split; [exact Hrt|exact Hclosed].
Defined.

Lemma open_cancels_polling_witness :
  fallbackTimer
    (default initial
       (step sample_parse reconnecting_session (SocketOpened 4%nat))) = None ∧
  controller
    (default initial
       (step sample_parse reconnecting_session (SocketOpened 4%nat))) = None.
Proof.
  destruct (open_cancels_polling sample_parse reconnecting_session
              (default initial
                 (step sample_parse reconnecting_session (SocketOpened 4%nat)))
              4%nat reconnecting_session_reachable)
    as (_ & Htimer & Hcontroller & _).
  - vm_compute. reflexivity.
  - split; [exact Htimer|exact Hcontroller].
Defined.

Lemma lost_connection_falls_back_witness :
  fallback_running
    (default initial
       (step sample_parse reconnecting_session (SocketClosed 4%nat))) ∧
  reconnect_scheduled
    (default initial
       (step sample_parse reconnecting_session (SocketClosed 4%nat))).
Proof.
  destruct (lost_connection_falls_back sample_parse reconnecting_session
              reconnecting_session_reachable) as [_ Hclose].
  - vm_compute. reflexivity.
  - apply (Hclose 4%nat). vm_compute. reflexivity.
Defined.

Lemma failed_construction_falls_back_witness :
  fallback_running
    (default initial
       (step sample_parse polling_session (TimerFired 2%nat true))) ∧
  reconnect_scheduled
    (default initial
       (step sample_parse polling_session (TimerFired 2%nat true))).
Proof.
  apply (proj2 (failed_construction_falls_back sample_parse)
           polling_session 2%nat _ polling_session_reachable);
    vm_compute; reflexivity.
Defined.

Lemma fallback_keeps_running_witness :
  fallback_running
    (default initial
       (step sample_parse polling_session (FetchSettled 4%nat Rejected))).
Proof.
  apply (fallback_keeps_running sample_parse polling_session _
           (FetchSettled 4%nat Rejected) polling_session_reachable).
  - vm_compute. reflexivity.
  - right. exists 4%nat. vm_compute. eauto.
  - vm_compute. reflexivity.
  - discriminate.
  - discriminate.
Defined.

Lemma listener_silent_after_detach_witness :
  delivered
    (default initial (run sample_parse (cleanup polling_session) after_detach))
  = [snapshot 1].
Proof.
  rewrite (listener_silent_after_detach sample_parse polling_session _
             after_detach polling_session_reachable).
  - vm_compute. reflexivity.
  - vm_compute. reflexivity.
Defined.

Lemma nothing_started_after_detach_witness :
  stopped
    (default initial (run sample_parse (cleanup polling_session) after_detach))
  = true.
Proof.
  apply (nothing_started_after_detach sample_parse polling_session _
           after_detach polling_session_reachable).
  vm_compute. reflexivity.
Defined.

End StreamExtras.

(* ===================================================================== *)
(** * Properties of the API client and the proxy route *)
(* ===================================================================== *)

Module ApiTheory.

Import StreamClient StreamInvariants ApiClient StreamTheory.

Section client.

Variable JSON_parse : string → option json.

Lemma parseJson_inr (response : Response) (data : json) :
  parseJson JSON_parse response = inr data ↔
  ok response = true ∧ JSON_parse (text response) = Some data ∧
  ¬ ∃ props, data = JObj props ∧ prop "ok" props = Some (JBool false).
Proof.
  unfold parseJson, ok_is_false. split.
  - destruct (JSON_parse (text response)) as [d|]; [|done].
    destruct d as [|b|n|str|items|props]; simpl;
      repeat case_match; try done;
      intros [= <-]; split_and!; try done;
      try by apply negb_false_iff; destruct (ok response).
    all: try by intros (? & ? & ?).
    all: intros (props' & [= <-] & Hok); simplify_eq.
  - intros (Hok & -> & Hno). rewrite Hok. simpl.
    destruct data as [|b|n|str|items|props]; simpl; try done;
      try by destruct b.
    + by destruct (negb (n =? 0)).
    + by destruct (negb (String.eqb str EmptyString)).
    + repeat case_match; try done. exfalso. apply Hno. by eexists.
Qed.

(** What a poll hands to the listener. *)
Lemma fetchState_snapshot (fetched : Fetched) (state : json) :
  fetchState JSON_parse fetched = inr state ∧ truthy state = true ↔
  ∃ response props,
    fetched = Responded response ∧ ok response = true ∧
    JSON_parse (text response) = Some (JObj props) ∧
    prop "ok" props ≠ Some (JBool false) ∧
    prop "state" props = Some state ∧ truthy state = true.
Proof.
  unfold fetchState. split.
  - intros [Hfetch Htruthy].
    destruct (apiFetch JSON_parse fetched) as [e|data] eqn:Hapi; [done|].
    destruct fetched as [|response]; [done|]. simpl in Hapi.
    apply parseJson_inr in Hapi as (Hok & Hparse & Hno).
    destruct data as [|b|n|str|items|props]; try done;
      try (injection Hfetch as <-; done).
    injection Hfetch as <-. unfold state_or_null in *. simpl in *.
    exists response, props. split_and!; try done.
    + intros Hfalse. apply Hno. by eexists.
    + by repeat case_match.
  - intros (response & props & -> & Hok & Hparse & Hnot & Hstate & Htruthy).
    split; [|done]. simpl.
    assert (parseJson JSON_parse response = inr (JObj props)) as ->.
    { apply parseJson_inr. split_and!; try done.
      intros (props' & [= <-] & Hfalse). done. }
    unfold state_or_null. simpl. rewrite Hstate.
    by destruct state.
Qed.

(** X27: a call of the API gives data exactly when the request was
    answered with a status from 200 to 299 and a body that is JSON and is
    not an object whose [ok] is [false]; an unanswered request, any other
    status, a body that is not JSON and a body with [ok: false] all make the
    call throw. *)
Theorem apiFetch_success_iff (fetched : Fetched) (data : json) :
  apiFetch JSON_parse fetched = inr data ↔
  ∃ response,
    fetched = Responded response ∧
    200 <= status response <= 299 ∧
    JSON_parse (text response) = Some data ∧
    ¬ ∃ props, data = JObj props ∧ prop "ok" props = Some (JBool false).
Proof.
  split.
  - destruct fetched as [|response]; [done|]. simpl.
    intros (Hok & Hparse & Hno)%parseJson_inr.
    exists response. split_and!; try done; unfold ok in Hok; lia.
  - intros (response & -> & Hstatus & Hparse & Hno). simpl.
    apply parseJson_inr. split_and!; try done. unfold ok. lia.
Qed.

(** X28: one round of the fallback.  When the request in flight settles, the
    next poll is scheduled whatever the answer was, and the listener is
    called - once, with the [state] of the body - exactly when the answer
    has a status from 200 to 299 and its body is a JSON object that does not
    say [ok: false] and has a truthy [state]. *)
Theorem poll_round (s : Session) (req : nat) (fetched : Fetched) :
  in_flight s req →
  ∃ s',
    step JSON_parse s (FetchSettled req (settle JSON_parse fetched)) = Some s' ∧
    (∃ id, fallbackTimer s' = Some id ∧ timers s' !! id = Some cb_pollState) ∧
    (delivered s' = delivered s ∨ ∃ state, delivered s' = delivered s ++ [state]) ∧
    ∀ state,
      delivered s' = delivered s ++ [state] ↔
      ∃ response props,
        fetched = Responded response ∧ 200 <= status response <= 299 ∧
        JSON_parse (text response) = Some (JObj props) ∧
        prop "ok" props ≠ Some (JBool false) ∧
        prop "state" props = Some state ∧ truthy state = true.
Proof.
  intros Hreq. unfold in_flight in Hreq. simpl. rewrite Hreq. simpl.
  eexists. split; [done|].
  assert (∀ l (x : json), l ≠ l ++ [x]) as Hne.
  { intros l x Heq. apply (f_equal length) in Heq.
    rewrite length_app in Heq. simpl in Heq. lia. }
  assert (∀ state,
    (∃ response props,
        fetched = Responded response ∧ 200 <= status response <= 299 ∧
        JSON_parse (text response) = Some (JObj props) ∧
        prop "ok" props ≠ Some (JBool false) ∧
        prop "state" props = Some state ∧ truthy state = true) ↔
    fetchState JSON_parse fetched = inr state ∧ truthy state = true) as Hiff.
  { intros state. rewrite fetchState_snapshot.
    split; intros (response & props & ? & Hok & ?);
      exists response, props; split_and!; try tauto; unfold ok in *; lia. }
  unfold settle.
  destruct (fetchState JSON_parse fetched) as [e|state0] eqn:Hfetch.
  - simpl. split_and!.
    + eexists. split; [done|]. by rewrite lookup_insert_eq.
    + by left.
    + intros state. rewrite Hiff. split; [|by intros [? _]].
      intros Heq. by apply Hne in Heq.
  - simpl. destruct (truthy state0) eqn:Htruthy; simpl; split_and!.
    + eexists. split; [done|]. by rewrite lookup_insert_eq.
    + right. by eexists.
    + intros state. rewrite Hiff. split.
      * intros Heq%app_inv_head. by injection Heq as <-.
      * by intros [[= <-] _].
    + eexists. split; [done|]. by rewrite lookup_insert_eq.
    + by left.
    + intros state. rewrite Hiff. split.
      * intros Heq. by apply Hne in Heq.
      * intros [[= <-] Ht]. congruence.
Qed.

(** X29: the two transports read a body differently.  A snapshot that is
    wrapped in [{ state: ... }] is handed to the listener by both; a bare
    snapshot is handed on when it arrives on the socket, and is dropped
    when it answers a poll, which then resolves with [null]. *)
Theorem transports_differ_on_bare_snapshot (response : Response)
    (props : list (string * json)) :
  ok response = true →
  JSON_parse (text response) = Some (JObj props) →
  prop "ok" props ≠ Some (JBool false) →
  (∀ state, prop "state" props = Some state → truthy state = true →
     accepted JSON_parse (text response) = Some state ∧
     settle JSON_parse (Responded response) = Resolved state) ∧
  (prop "state" props = None ∨ prop "state" props = Some JNull →
     accepted JSON_parse (text response) = Some (JObj props) ∧
     settle JSON_parse (Responded response) = Resolved JNull).
Proof.
  intros Hok Hparse Hnot.
  assert (parseJson JSON_parse response = inr (JObj props)) as Hjson.
  { apply parseJson_inr. split_and!; try done.
    by intros (props' & [= <-] & Hfalse). }
  unfold accepted, settle, fetchState, state_of, optional_state,
    state_or_null. simpl. rewrite Hparse, Hjson. simpl. split.
  - intros state Hstate Htruthy. rewrite Hstate.
    destruct state; simpl in *; try done; by rewrite ?Htruthy.
  - by intros [-> | ->].
Qed.

End client.

Section route.

Variable JSON_parse : string → option json.
Variable JSON_stringify : json → string.
Variable takes_body : Z → bool.

(** X30: an answer of the upstream without a body never counts as a
    success: the proxy puts [{ ok: false, passthrough: true }] in its place
    and keeps the status, so the call of the client throws the default
    [CityFlow API error] whatever the status is - also for 200 - and a poll
    is rejected.  An answer with a body is passed on unchanged. *)
Theorem empty_upstream_body_is_an_error (res out : Response) :
  JSON_parse (JSON_stringify passthrough) = Some passthrough →
  proxy JSON_stringify takes_body res = Some out →
  status out = status res ∧
  (text res = EmptyString →
   apiFetch JSON_parse (Responded out) = inl api_error ∧
   settle JSON_parse (Responded out) = Rejected) ∧
  (text res ≠ EmptyString → out = res).
Proof.
  intros Hround Hproxy. unfold proxy in Hproxy.
  destruct (takes_body (status res)); [|done].
  injection Hproxy as <-. split; [done|]. split.
  - intros Hempty.
    assert (apiFetch JSON_parse
              (Responded {| status := status res;
                            text := safe JSON_stringify (text res) |})
            = inl api_error) as Hapi.
    { simpl. unfold parseJson, safe. simpl. rewrite Hempty. simpl.
      by rewrite Hround. }
    split; [done|]. unfold settle, fetchState. by rewrite Hapi.
  - intros Hbody. unfold safe. destruct res as [code body].
    simpl in *. by destruct body.
Qed.

End route.

(** ** Sample answers *)

Lemma apiFetch_success_iff_witness :
  apiFetch api_parse (Responded wrapped_answer)
  = inr (JObj [("state", snapshot 8)]).
Proof.
  apply (apiFetch_success_iff api_parse).
  exists wrapped_answer. split_and!.
  - reflexivity.
  - simpl. lia.
  - simpl. lia.
  - vm_compute. reflexivity.
  - intros (props & [= <-] & Hfalse). vm_compute in Hfalse. discriminate.
Defined.

Lemma poll_round_witness :
  ∃ s',
    step api_parse polling_session
      (FetchSettled 4%nat (settle api_parse (Responded wrapped_answer)))
    = Some s' ∧
    delivered s' = delivered polling_session ++ [snapshot 8].
Proof.
  destruct (poll_round api_parse polling_session 4%nat
              (Responded wrapped_answer)) as (s' & Hstep & _ & _ & Hiff).
  - vm_compute. reflexivity.
  - exists s'. split; [exact Hstep|]. apply Hiff.
    exists wrapped_answer, [("state", snapshot 8)]. split_and!.
    + reflexivity.
    + simpl. lia.
    + simpl. lia.
    + vm_compute. reflexivity.
    + vm_compute. discriminate.
    + vm_compute. reflexivity.
    + vm_compute. reflexivity.
Defined.

Lemma transports_differ_on_bare_snapshot_witness :
  accepted api_parse text_bare = Some (snapshot 7) ∧
  settle api_parse (Responded bare_answer) = Resolved JNull.
Proof.
  apply (transports_differ_on_bare_snapshot api_parse bare_answer
           [("t", JNum 7)]).
  - vm_compute. reflexivity.
  - vm_compute. reflexivity.
  - vm_compute. discriminate.
  - left. vm_compute. reflexivity.
Defined.

Lemma empty_upstream_body_is_an_error_witness :
  ∃ out,
    proxy sample_stringify sample_takes_body empty_answer = Some out ∧
    apiFetch api_parse (Responded out) = inl api_error.
Proof.
  exists {| status := 200; text := passthrough_text |}.
  assert (proxy sample_stringify sample_takes_body empty_answer
          = Some {| status := 200; text := passthrough_text |}) as Hout.
  { vm_compute. reflexivity. }
  split; [exact Hout|].
  destruct (empty_upstream_body_is_an_error api_parse sample_stringify
              sample_takes_body empty_answer _
              ltac:(vm_compute; reflexivity) Hout) as (_ & Hempty & _).
  apply Hempty. reflexivity.
Defined.

End ApiTheory.
